(** * Shallow embedding of the seastar future combinators

    This development models the combinators of [loop.hh] and [do_with.hh],
    the gate destructor and the abortable sleeps of [gate.cc]. A future is
    modelled by the result it carries (a value or an exception) and by
    whether it is already available when it is returned. *)

From Stdlib Require Import List Arith Lia Bool.
From Stdlib Require Ascii BinNat.
Import ListNotations.

(** ** Futures and their results *)

(** The exceptions the code throws or passes through. *)
Inductive error : Type :=
  | sleep_aborted                   (* seastar::sleep_aborted *)
  | condition_variable_timed_out    (* thrown by wait_for_stop on timeout *)
  | user_error (n : nat).           (* anything thrown by user code *)

(** The resolved state of a [future<T>]: a value or an exception. *)
Inductive res (T : Type) : Type :=
  | Val (v : T)
  | Exn (e : error).
Arguments Val {T} v.
Arguments Exn {T} e.

(** A future as returned by a call: [Ready r] is available, [Pending r]
    is not yet available and resolves later with [r]. *)
Inductive fut (T : Type) : Type :=
  | Ready (r : res T)
  | Pending (r : res T).
Arguments Ready {T} r.
Arguments Pending {T} r.

Definition available {T} (f : fut T) : bool :=
  match f with Ready _ => true | Pending _ => false end.

(** [failed()] is only meaningful on an available future. *)
Definition failed {T} (f : fut T) : bool :=
  match f with Ready (Exn _) => true | _ => false end.

(** The result the future carries once it has resolved. *)
Definition fut_res {T} (f : fut T) : res T :=
  match f with Ready r => r | Pending r => r end.

(** What a user callback does when invoked: return a (possibly failed)
    future, or throw synchronously. *)
Inductive callback_outcome (T : Type) : Type :=
  | Returns (r : res T)
  | Throws (e : error).
Arguments Returns {T} r.
Arguments Throws {T} e.

(** [futurize_invoke]: a synchronous throw becomes a failed future. *)
Definition futurize {T} (o : callback_outcome T) : res T :=
  match o with Returns r => r | Throws e => Exn e end.

(** [f.then(func)]: on a failed future the callback is skipped and the
    failure forwarded; otherwise the callback runs and its (futurized)
    result becomes the result. The boolean says whether it ran. *)
Definition then_ {T U} (r : res T) (func : T -> callback_outcome U)
  : res U * bool :=
  match r with
  | Exn e => (Exn e, false)
  | Val v => (futurize (func v), true)
  end.

(** [f.handle_exception(h)]: [h] runs only on failure. *)
Definition handle_exception {T} (r : res T) (h : error -> callback_outcome T)
  : res T :=
  match r with
  | Val v => Val v
  | Exn e => futurize (h e)
  end.

(** ** [with_lock] (do_with.hh) *)

Module WithLock.

(** What a lockable does, observed from outside. *)
Inductive lock_event : Type :=
  | ev_lock      (* lock.lock() called *)
  | ev_func      (* func() invoked *)
  | ev_unlock.   (* lock.unlock() called *)

(** Any object with [lock()] returning a future and [unlock()]. *)
Class Lockable (L : Type) := {
  lock : L -> res unit * L;
  unlock : L -> L
}.

Section WithLockDef.
Context {L : Type} `{Lockable L} {R : Type}.

(** [with_lock(lock, func)]:
<<
    return lock.lock().then([func] { return func(); })
           .then_wrapped([&lock] (auto&& fut) { lock.unlock(); return std::move(fut); });
>>
    The state of the lockable is threaded through, and the calls made
    are recorded. *)
Definition with_lock (l : L) (func : callback_outcome R)
  : res R * L * list lock_event :=
  let '(lr, l1) := lock l in
  let '(r, ran) := then_ lr (fun _ => func) in
  (* then_wrapped: runs on value and on exception alike *)
  let l2 := unlock l1 in
  (r, l2, [ev_lock] ++ (if ran then [ev_func] else []) ++ [ev_unlock]).

End WithLockDef.

Definition count_unlock (tr : list lock_event) : nat :=
  length (filter (fun e => match e with ev_unlock => true | _ => false end) tr).

(** A toy exclusive lock, as the test's rwlock write view: [lock] fails
    with the given error when it is set, and the lock state counts holders. *)
Record test_lock := { tl_fail : option error; tl_held : nat }.

#[export] Instance test_lock_lockable : Lockable test_lock := {
  lock l := match tl_fail l with
            | Some e => (Exn e, l)
            | None => (Val tt, {| tl_fail := None; tl_held := S (tl_held l) |})
            end;
  unlock l := {| tl_fail := tl_fail l; tl_held := pred (tl_held l) |}
}.

End WithLock.

(** ** Abortable sleep (gate.cc) *)

Module Sleep.

(** State of a [timer<Clock>]. [cancel()] returns true iff the timer was
    armed and had not fired yet. *)
Inductive timer_state : Type := Unarmed | Armed | Fired | Cancelled.

Definition tmr_cancel (t : timer_state) : bool * timer_state :=
  match t with
  | Armed => (true, Cancelled)
  | _ => (false, t)
  end.

(** The [sleeper] of [sleep_abortable(dur, as)] together with the
    abort source it subscribed to. [done] is the promise ([None] while
    unresolved), [sc] says whether the subscription is held, and
    [destroyed] whether the [finally] continuation has freed the sleeper. *)
Record world := {
  as_aborted : bool;
  done : option (res unit);
  tmr : timer_state;
  sc : bool;
  destroyed : bool
}.

(** [abort_source::subscribe] returns no subscription when the source has
    already been aborted; the sleeper's constructor then fails [done]
    instead of arming the timer. *)
Definition sleeper_ctor (aborted : bool) : world :=
  if aborted
  then {| as_aborted := true; done := Some (Exn sleep_aborted);
          tmr := Unarmed; sc := false; destroyed := false |}
  else {| as_aborted := false; done := None;
          tmr := Armed; sc := true; destroyed := false |}.

(** The events that can reach the sleeper once it is constructed. *)
Inductive event : Type :=
  | request_abort      (* as.request_abort() *)
  | timer_fires        (* the timer wheel fires an armed timer *)
  | finally_runs.      (* the fut.finally() continuation runs *)

(** The abort callback: [if (tmr.cancel()) done.set_exception(sleep_aborted());] *)
Definition on_abort (w : world) : world :=
  let '(c, t') := tmr_cancel (tmr w) in
  {| as_aborted := as_aborted w;
     done := if c then Some (Exn sleep_aborted) else done w;
     tmr := t'; sc := sc w; destroyed := destroyed w |}.

Definition step (w : world) (ev : event) : world :=
  match ev with
  | request_abort =>
      if as_aborted w then w   (* a source fires its subscribers once *)
      else
        let w1 := {| as_aborted := true; done := done w; tmr := tmr w;
                     sc := sc w; destroyed := destroyed w |} in
        if sc w then on_abort w1 else w1
  | timer_fires =>
      match tmr w with
      | Armed => {| as_aborted := as_aborted w; done := Some (Val tt);
                    tmr := Fired; sc := sc w; destroyed := destroyed w |}
      | _ => w
      end
  | finally_runs =>
      (* the continuation only runs once [done] is resolved; it frees the
         sleeper, dropping the subscription *)
      match done w with
      | Some _ => {| as_aborted := as_aborted w; done := done w; tmr := tmr w;
                     sc := false; destroyed := true |}
      | None => w
      end
  end.

Definition run (w : world) (evs : list event) : world := fold_left step evs w.

(** [sleep_abortable(dur, as)] followed by the events [evs]; the returned
    future carries [done] (the [finally] forwards it unchanged). *)
Definition sleep_abortable (aborted_at_entry : bool) (evs : list event) : world :=
  run (sleeper_ctor aborted_at_entry) evs.

(** The first event that can resolve the sleep. *)
Fixpoint first_decisive (evs : list event) : option event :=
  match evs with
  | [] => None
  | finally_runs :: evs' => first_decisive evs'
  | ev :: _ => Some ev
  end.

(** *** [sleep_abortable(dur)] without an abort source *)

Inductive engine_event : Type := stop_requested | duration_elapsed.

(** Modelled from the spec: [reactor::wait_for_stop(dur)] is not under
    src/. The spec: "resolves when the engine is shutting down"; its
    caller in gate.cc treats [condition_variable_timed_out] as the outcome
    when [dur] elapses first. [None]: still unresolved. *)
Definition wait_for_stop (evs : list engine_event) : option (res unit) :=
  match evs with
  | [] => None
  | stop_requested :: _ => Some (Val tt)
  | duration_elapsed :: _ => Some (Exn condition_variable_timed_out)
  end.

Definition is_timed_out (e : error) : bool :=
  match e with condition_variable_timed_out => true | _ => false end.

(**
<<
    return engine().wait_for_stop(dur).then([] {
        throw sleep_aborted();
    }).handle_exception([] (std::exception_ptr ep) {
        try { std::rethrow_exception(ep); } catch(condition_variable_timed_out&) {};
    });
>> *)
Definition sleep_abortable_nosrc (evs : list engine_event) : option (res unit) :=
  match wait_for_stop evs with
  | None => None
  | Some r =>
      let r1 := fst (then_ r (fun _ => Throws sleep_aborted)) in
      Some (handle_exception r1
              (fun e => if is_timed_out e then Returns (Val tt) else Throws e))
  end.

End Sleep.

(** ** [do_for_each] (loop.hh) *)

Module DoForEach.

Section DoForEachDef.
Variable A : Type.
(** [futurize_invoke(action, x)] *)
Variable action : A -> fut unit.
(** The value [need_preempt()] returns at its n-th poll. *)
Variable need_preempt : nat -> bool.

(** What happens to the elements, in order. *)
Inductive event : Type :=
  | invoked (x : A)                (* the action is called on x *)
  | resolved (x : A) (r : res unit). (* the future it returned resolves *)

(** [do_for_each_state]: the rest of the range and the future the task
    was attached to with [set_callback]. *)
Record state : Type := mk_state {
  st_begin : list A;
  st_elem : A;
  st_fut : fut unit
}.

Inductive step_result : Type :=
  | returned (r : res unit)     (* the promise / returned future is set *)
  | suspended (s : state).      (* a task waits on a future *)

(** The [while (begin != end)] loop shared by [do_for_each_impl] and
    [do_for_each_state::run_and_dispose]. [np] counts the polls of
    [need_preempt()], [tr] is the trace so far; a future that is
    available is resolved as soon as it is returned. *)
Fixpoint loop (l : list A) (np : nat) (tr : list event)
  : step_result * nat * list event :=
  match l with
  | [] => (returned (Val tt), np, tr)
  | x :: l' =>
      let f := action x in
      let tr1 := tr ++ invoked x ::
                   (if available f then [resolved x (fut_res f)] else []) in
      if failed f then (returned (fut_res f), np, tr1)
      else if negb (available f) then (suspended (mk_state l' x f), np, tr1)
      else if need_preempt np then (suspended (mk_state l' x f), S np, tr1)
      else loop l' (S np) tr1
  end.

Definition do_for_each_impl (l : list A) : step_result * nat * list event :=
  loop l 0 [].

Definition res_failed {T} (r : res T) : bool :=
  match r with Exn _ => true | Val _ => false end.

(** [run_and_dispose()] with [_state] holding the resolved result [r]. *)
Definition run_and_dispose (s : state) (r : res unit) (np : nat) (tr : list event)
  : step_result * nat * list event :=
  if res_failed r then (returned r, np, tr)
  else loop (st_begin s) np tr.

(** The reactor: the awaited future resolves and the task runs. *)
Fixpoint drive (fuel : nat) (o : step_result) (np : nat) (tr : list event)
  : option (res unit * list event) :=
  match o with
  | returned r => Some (r, tr)
  | suspended s =>
      match fuel with
      | 0 => None
      | S n =>
          let r := fut_res (st_fut s) in
          let tr1 := if available (st_fut s) then tr
                     else tr ++ [resolved (st_elem s) r] in
          let '(o', np', tr2) := run_and_dispose s r np tr1 in
          drive n o' np' tr2
      end
  end.

(** [do_for_each(begin, end, action)] run to completion: the result the
    returned future carries and the trace. Each suspension consumes an
    element, so [length l] rounds of the reactor suffice. *)
Definition do_for_each (l : list A) : option (res unit * list event) :=
  let '(o, np, tr) := do_for_each_impl l in drive (length l) o np tr.

(** The sequential semantics the documentation describes: each element
    is invoked after the previous one resolved, stopping at the first
    failure. *)
Fixpoint sequential_spec (l : list A) : res unit * list event :=
  match l with
  | [] => (Val tt, [])
  | x :: l' =>
      let r := fut_res (action x) in
      match r with
      | Exn e => (Exn e, [invoked x; resolved x r])
      | Val _ =>
          let '(r', tr) := sequential_spec l' in
          (r', invoked x :: resolved x r :: tr)
      end
  end.

End DoForEachDef.

Arguments invoked {A} x.
Arguments resolved {A} x r.

End DoForEach.

(** ** [repeat] (loop.hh) *)

Module Repeat.

(** [stop_iteration::yes] is [true]. *)
Definition stop_iteration := bool.

Section RepeatDef.
(** The future returned by the k-th call of the action. *)
Variable action : nat -> fut stop_iteration.
Variable need_preempt : nat -> bool.

(** What [repeat] returns synchronously: [make_ready_future<>()] without
    any allocation, or the future of a freshly allocated
    [internal::repeater] attached to the k-th future [f] with
    [set_callback] (the calls made so far, the future, the polls made). *)
Inductive repeat_return : Type :=
  | returned_ready
  | repeater_allocated (calls : nat) (f : fut stop_iteration) (np : nat).

(** The [for (;;)] loop of [repeat]; [fuel] bounds the iterations. *)
Fixpoint repeat_loop (fuel k np : nat) : option repeat_return :=
  match fuel with
  | 0 => None
  | S fuel' =>
      let f := action k in
      (* if (!f.available() || f.failed() || need_preempt()) *)
      if negb (available f) || failed f then
        Some (repeater_allocated (S k) f np)
      else if need_preempt np then
        Some (repeater_allocated (S k) f (S np))
      else
        match fut_res f with
        | Val true => Some returned_ready
        | _ => repeat_loop fuel' (S k) (S np)
        end
  end.

Definition repeat (fuel : nat) : option repeat_return := repeat_loop fuel 0 0.

(** Outcome of one [repeater::run_and_dispose()]. *)
Inductive repeater_step : Type :=
  | rep_done (r : res unit)                       (* promise set, task deleted *)
  | rep_wait (calls : nat) (f : fut stop_iteration) (* set_callback(f, this) *)
  | rep_rescheduled (calls np : nat).             (* schedule(this) *)

(** The [do { ... } while (!need_preempt())] loop of the repeater. *)
Fixpoint repeater_loop (fuel k np : nat) : repeater_step :=
  match fuel with
  | 0 => rep_rescheduled k np
  | S fuel' =>
      let f := action k in
      if negb (available f) then rep_wait (S k) f
      else
        match fut_res f with
        | Exn e => rep_done (Exn e)           (* get0() throws, caught *)
        | Val true => rep_done (Val tt)
        | Val false =>
            if need_preempt np then rep_rescheduled (S k) (S np)
            else repeater_loop fuel' (S k) (S np)
        end
  end.

(** [run_and_dispose()] with [_state] holding [st]. *)
Definition repeater_run (fuel : nat) (st : res stop_iteration) (k np : nat)
  : repeater_step :=
  match st with
  | Exn e => rep_done (Exn e)
  | Val true => rep_done (Val tt)
  | Val false => repeater_loop fuel k np
  end.

End RepeatDef.

End Repeat.

(** ** [parallel_for_each] (loop.hh) *)

Module ParallelForEach.

Section ParallelForEachDef.
Variable A : Type.
Variable func : A -> fut unit.

(** What [parallel_for_each] returns synchronously. *)
Inductive pfe_return : Type :=
  | pfe_ready                          (* make_ready_future<>() *)
  | pfe_state (fs : list (fut unit)).  (* s->get_future() *)

(** The [while (begin != end)] loop: futures that are unavailable or
    failed are collected in [s], allocated on first need. The second
    component lists the elements [func] was invoked on. *)
Fixpoint pfe_loop (l : list A) (s : option (list (fut unit)))
  : option (list (fut unit)) * list A :=
  match l with
  | [] => (s, [])
  | x :: l' =>
      let f := func x in
      let s' := if negb (available f) || failed f
                then Some (match s with None => [f] | Some fs => fs ++ [f] end)
                else s in
      let '(s'', inv) := pfe_loop l' s' in
      (s'', x :: inv)
  end.

Definition parallel_for_each (l : list A) : pfe_return * list A :=
  let '(s, inv) := pfe_loop l None in
  (match s with None => pfe_ready | Some fs => pfe_state fs end, inv).

End ParallelForEachDef.

End ParallelForEach.

(** ** [max_concurrent_for_each] (loop.hh) *)

Module MaxConcurrent.

(** Modelled from the spec: [semaphore.hh] is not under src/. The spec
    describes "a counting semaphore of [max_concurrent] units": [wait(n)]
    takes [n] units at once when they are available and nobody is queued,
    otherwise it queues; [signal(n)] returns the units and wakes queued
    waiters in FIFO order while their requests can be met. *)
Record semaphore := { sem_count : nat; sem_waiters : list nat }.

Definition sem_wait (n : nat) (s : semaphore) : bool * semaphore :=
  if (n <=? sem_count s) && (match sem_waiters s with [] => true | _ => false end)
  then (true, {| sem_count := sem_count s - n; sem_waiters := [] |})
  else (false, {| sem_count := sem_count s; sem_waiters := sem_waiters s ++ [n] |}).

(** Wake the queue front while its request can be met; the woken requests. *)
Fixpoint sem_wake (ws : list nat) (c : nat) : list nat * list nat * nat :=
  match ws with
  | [] => ([], [], c)
  | n :: ws' =>
      if n <=? c then
        let '(woken, rest, c') := sem_wake ws' (c - n) in (n :: woken, rest, c')
      else ([], ws, c)
  end.

Definition sem_signal (n : nat) (s : semaphore) : list nat * semaphore :=
  let '(woken, rest, c) := sem_wake (sem_waiters s) (sem_count s + n) in
  (woken, {| sem_count := c; sem_waiters := rest |}).

Section MaxConcurrentDef.
Variable A : Type.
(** [futurize_invoke(s.func, *s.begin++)]: the result the background
    invocation eventually resolves with. *)
Variable func : A -> fut unit.
Variable max_concurrent : nat.

(** Where the [do_with] body is. *)
Inductive phase : Type :=
  | Looping        (* do_until: evaluate [s.begin == s.end] *)
  | WaitingUnit    (* queued in [s.sem.wait()] *)
  | Granted        (* [s.sem.wait()] resolved, the [then] lambda is due *)
  | WaitAll        (* queued in [s.sem.wait(s.max_concurrent)] *)
  | Reclaimed      (* [sem.wait(max_concurrent)] resolved *)
  | Done (r : res unit).  (* the returned future is resolved *)

Inductive mc_event : Type :=
  | launched (x : A)
  | completed (x : A) (r : res unit).

(** The [state] struct of [max_concurrent_for_each], the launched
    invocations that have not completed, the phase and the trace. *)
Record mc_state : Type := {
  rest : list A;                    (* [s.begin .. s.end) *)
  sem : semaphore;                  (* [s.sem] *)
  inflight : list (A * res unit);   (* background invocations *)
  err : option error;               (* [s.err] *)
  ph : phase;
  trace : list mc_event
}.

Definition mc_init (l : list A) : mc_state :=
  {| rest := l; sem := {| sem_count := max_concurrent; sem_waiters := [] |};
     inflight := []; err := None; ph := Looping; trace := [] |}.

(** Which piece of the computation moves next. *)
Inductive choice : Type :=
  | ch_loop              (* the do_until step *)
  | ch_launch            (* the lambda after [sem.wait()] runs *)
  | ch_complete (i : nat) (* the i-th in-flight invocation completes *)
  | ch_finish.           (* the last [then] runs *)

Definition wake_phase (p : phase) (woken : list nat) : phase :=
  match woken with
  | [] => p
  | _ :: _ => match p with
              | WaitingUnit => Granted
              | WaitAll => Reclaimed
              | _ => p
              end
  end.

Fixpoint remove_nth {B} (i : nat) (l : list B) : list B :=
  match i, l with
  | _, [] => []
  | 0, _ :: l' => l'
  | S i', y :: l' => y :: remove_nth i' l'
  end.

Definition mc_next (st : mc_state) (c : choice) : option mc_state :=
  match c, ph st with
  | ch_loop, Looping =>
      match rest st with
      | [] =>
          (* do_until resolves; .then: return s.sem.wait(s.max_concurrent) *)
          let '(g, s') := sem_wait max_concurrent (sem st) in
          Some {| rest := rest st; sem := s'; inflight := inflight st;
                  err := err st; ph := if g then Reclaimed else WaitAll;
                  trace := trace st |}
      | _ :: _ =>
          let '(g, s') := sem_wait 1 (sem st) in
          Some {| rest := rest st; sem := s'; inflight := inflight st;
                  err := err st; ph := if g then Granted else WaitingUnit;
                  trace := trace st |}
      end
  | ch_launch, Granted =>
      match rest st with
      | x :: r' =>
          (* (void)futurize_invoke(s.func, *s.begin++).then_wrapped(...) *)
          Some {| rest := r'; sem := sem st;
                  inflight := inflight st ++ [(x, fut_res (func x))];
                  err := err st; ph := Looping;
                  trace := trace st ++ [launched x] |}
      | [] => None
      end
  | ch_complete i, _ =>
      match nth_error (inflight st) i with
      | Some (x, r) =>
          (* then_wrapped: record the first error, then s.sem.signal() *)
          let e' := match err st, r with
                    | None, Exn e => Some e
                    | e0, _ => e0
                    end in
          let '(woken, s') := sem_signal 1 (sem st) in
          Some {| rest := rest st; sem := s';
                  inflight := remove_nth i (inflight st);
                  err := e'; ph := wake_phase (ph st) woken;
                  trace := trace st ++ [completed x r] |}
      | None => None
      end
  | ch_finish, Reclaimed =>
      Some {| rest := rest st; sem := sem st; inflight := inflight st;
              err := err st;
              ph := Done (match err st with None => Val tt | Some e => Exn e end);
              trace := trace st |}
  | _, _ => None
  end.

Fixpoint mc_exec (st : mc_state) (cs : list choice) : option mc_state :=
  match cs with
  | [] => Some st
  | c :: cs' =>
      match mc_next st c with
      | Some st' => mc_exec st' cs'
      | None => None
      end
  end.

(** A state some schedule of the computation reaches. *)
Definition reachable (l : list A) (st : mc_state) : Prop :=
  exists cs, mc_exec (mc_init l) cs = Some st.

(** What [max_concurrent_for_each] returns synchronously. [then_inline]
    says whether [then] on an already available future runs its
    continuation inline: the spec says it MAY ("if self is already
    resolved ... the continuation MAY be invoked inline"), and leaves it
    otherwise to be scheduled. For a non-empty range the computation
    continues as [mc_next] describes from [mc_init l]. *)
Inductive mc_return : Type :=
  | mc_assert_failure               (* assert(max_concurrent > 0) *)
  | mc_ready (r : res unit)
  | mc_running (st : mc_state).

Definition max_concurrent_for_each (l : list A) (then_inline : bool) : mc_return :=
  if max_concurrent =? 0 then mc_assert_failure
  else
    match l with
    | [] =>
        (* do_until: stop_cond() holds, make_ready_future<>() *)
        if then_inline then
          match sem_wait max_concurrent (sem (mc_init l)) with
          | (true, _) =>
              (* .then: no error recorded, make_ready_future<>() *)
              mc_ready (Val tt)
          | (false, _) => mc_running (mc_init l)
          end
        else mc_running (mc_init l)
    | _ :: _ => mc_running (mc_init l)
    end.

Definition count_launched (tr : list mc_event) : nat :=
  length (filter (fun e => match e with launched _ => true | _ => false end) tr).

Definition count_completed (tr : list mc_event) : nat :=
  length (filter (fun e => match e with completed _ _ => true | _ => false end) tr).

(** The first error among the completions, in the order they happened. *)
Fixpoint first_error (tr : list mc_event) : option error :=
  match tr with
  | [] => None
  | completed _ (Exn e) :: _ => Some e
  | _ :: tr' => first_error tr'
  end.

End MaxConcurrentDef.

Arguments launched {A} x.
Arguments completed {A} x r.

End MaxConcurrent.

(** ** [gate] (gate.cc) *)

Module Gate.

(** [gate]: [_count] and [_stopped] (the promise of [close()], if any). *)
Record gate := { count : nat; stopped : option unit }.

(** [gate::gate() noexcept = default;] *)
Definition gate_new : gate := {| count := 0; stopped := None |}.

(** [gate::gate(gate&& o)]: the moved-from gate has its count zeroed. *)
Definition gate_move (o : gate) : gate * gate :=
  ({| count := count o; stopped := stopped o |},
   {| count := 0; stopped := None |}).

Inductive dtor_outcome : Type := destroyed_ok | assertion_failure.

(** [gate::~gate() { assert(_count == 0); }] *)
Definition gate_destroy (g : gate) : dtor_outcome :=
  if count g =? 0 then destroyed_ok else assertion_failure.

End Gate.

(** ** A concrete run of [max_concurrent_for_each] *)

Module Demo.
Import MaxConcurrent.

(** Two elements, at most two invocations at a time; the invocation on
    [n] fails with [user_error n]. *)
Definition demo_func (n : nat) : fut unit := Pending (Exn (user_error n)).

Definition demo_range : list nat := [1; 2].

(** Both invocations are launched, then the one on 2 completes first. *)
Definition demo_schedule : list choice :=
  [ch_loop; ch_launch; ch_loop; ch_launch; ch_loop;
   ch_complete 1; ch_complete 0; ch_finish].

Definition demo_state (cs : list choice) : mc_state nat :=
  match mc_exec nat demo_func 2 (mc_init nat 2 demo_range) cs with
  | Some st => st
  | None => mc_init nat 2 demo_range
  end.

End Demo.

(** ** Launch order in a [max_concurrent_for_each] trace *)

Module MaxConcurrentTrace.
Import MaxConcurrent.

Section Launches.
Variable A : Type.

(** The elements launched, in the order of the trace. *)
Fixpoint launched_elems (tr : list (mc_event A)) : list A :=
  match tr with
  | [] => []
  | launched x :: tr' => x :: launched_elems tr'
  | completed _ _ :: tr' => launched_elems tr'
  end.

End Launches.

(** The same two-element run with [max_concurrent = 1]. *)
Definition demo1_state (cs : list choice) : mc_state nat :=
  match mc_exec nat Demo.demo_func 1 (mc_init nat 1 Demo.demo_range) cs with
  | Some st => st
  | None => mc_init nat 1 Demo.demo_range
  end.

End MaxConcurrentTrace.

(** ** [repeat] run to completion (loop.hh) *)

Module RepeatRun.
Import Repeat.

Section RepeatRunDef.
Variable action : nat -> fut stop_iteration.
Variable need_preempt : nat -> bool.

(** The documented outcome: the action is called until a call fails or
    resolves with [stop_iteration::yes]; [None] when that does not
    happen within [n] calls starting from the [k]-th. *)
Fixpoint repeat_outcome (n k : nat) : option (res unit) :=
  match n with
  | 0 => None
  | S n' =>
      match fut_res (action k) with
      | Exn e => Some (Exn e)
      | Val true => Some (Val tt)
      | Val false => repeat_outcome n' (S k)
      end
  end.

(** The reactor running the repeater: after [set_callback] it runs again
    with the awaited future's result in [_state]; after [schedule(this)]
    it runs again with [stop_iteration::no] in [_state]. [inner] bounds
    the [do ... while] of each run. A run that ends waiting polled
    [need_preempt()] once per call that did not suspend. *)
Fixpoint repeater_drive (fuel inner : nat) (st : res stop_iteration) (k np : nat)
  : option (res unit) :=
  match fuel with
  | 0 => None
  | S fuel' =>
      match repeater_run action need_preempt inner st k np with
      | rep_done r => Some r
      | rep_wait k' f => repeater_drive fuel' inner (fut_res f) k' (np + (k' - S k))
      | rep_rescheduled k' np' => repeater_drive fuel' inner (Val false) k' np'
      end
  end.

(** [repeat(action)] followed by the reactor: the result the returned
    future resolves with. *)
Definition repeat_run (fuel inner : nat) : option (res unit) :=
  match repeat action need_preempt fuel with
  | None => None
  | Some returned_ready => Some (Val tt)
  | Some (repeater_allocated k f np) => repeater_drive fuel inner (fut_res f) k np
  end.

End RepeatRunDef.

End RepeatRun.

(** ** [do_until] (loop.hh) *)

Module DoUntil.

Section DoUntilDef.
(** The value [stop_cond()] returns when evaluated after [k] calls of
    the action, and the future the [k]-th call returns. *)
Variable stop_cond : nat -> bool.
Variable action : nat -> fut unit.
Variable need_preempt : nat -> bool.

(** What [do_until] returns synchronously: a ready (possibly failed)
    future, or the future of a [do_until_state] attached to the
    [calls]-th future [f] with [set_callback]. *)
Inductive do_until_return : Type :=
  | du_ready (r : res unit)
  | du_task_allocated (calls : nat) (f : fut unit) (np : nat).

(** The [for (;;)] loop of [do_until]; [fuel] bounds the iterations. *)
Fixpoint do_until_loop (fuel k np : nat) : option do_until_return :=
  match fuel with
  | 0 => None
  | S fuel' =>
      if stop_cond k then Some (du_ready (Val tt))
      else
        let f := action k in
        if failed f then Some (du_ready (fut_res f))
        else if negb (available f) then Some (du_task_allocated (S k) f np)
        else if need_preempt np then Some (du_task_allocated (S k) f (S np))
        else do_until_loop fuel' (S k) (S np)
  end.

Definition do_until (fuel : nat) : option do_until_return := do_until_loop fuel 0 0.

(** Outcome of one [do_until_state::run_and_dispose()]. *)
Inductive do_until_step : Type :=
  | du_done (r : res unit)                  (* promise set, task deleted *)
  | du_wait (calls : nat) (f : fut unit)    (* set_callback(f, this) *)
  | du_rescheduled (calls np : nat).        (* schedule(this) *)

(** The [do { ... } while (!need_preempt())] loop of the task. *)
Fixpoint do_until_state_loop (fuel k np : nat) : do_until_step :=
  match fuel with
  | 0 => du_rescheduled k np
  | S fuel' =>
      if stop_cond k then du_done (Val tt)
      else
        let f := action k in
        if negb (available f) then du_wait (S k) f
        else if failed f then du_done (fut_res f)   (* f.forward_to(_promise) *)
        else if need_preempt np then du_rescheduled (S k) (S np)
        else do_until_state_loop fuel' (S k) (S np)
  end.

(** [run_and_dispose()]: [_state] is the awaited future's result after
    [set_callback], and unavailable ([None]) after [schedule(this)]. *)
Definition do_until_state_run (fuel : nat) (st : option (res unit)) (k np : nat)
  : do_until_step :=
  match st with
  | Some (Exn e) => du_done (Exn e)    (* set_urgent_state *)
  | _ => do_until_state_loop fuel k np
  end.

(** The reactor running the task, as for [repeater_drive]. *)
Fixpoint do_until_drive (fuel inner : nat) (st : option (res unit)) (k np : nat)
  : option (res unit) :=
  match fuel with
  | 0 => None
  | S fuel' =>
      match do_until_state_run inner st k np with
      | du_done r => Some r
      | du_wait k' f => do_until_drive fuel' inner (Some (fut_res f)) k' (np + (k' - S k))
      | du_rescheduled k' np' => do_until_drive fuel' inner None k' np'
      end
  end.

(** [do_until(stop_cond, action)] followed by the reactor. *)
Definition do_until_run (fuel inner : nat) : option (res unit) :=
  match do_until fuel with
  | None => None
  | Some (du_ready r) => Some r
  | Some (du_task_allocated k f np) => do_until_drive fuel inner (Some (fut_res f)) k np
  end.

(** The documented outcome: the action is called until [stop_cond()]
    holds (success) or a call fails (its error). *)
Fixpoint do_until_outcome (n k : nat) : option (res unit) :=
  match n with
  | 0 => None
  | S n' =>
      if stop_cond k then Some (Val tt)
      else
        match fut_res (action k) with
        | Exn e => Some (Exn e)
        | Val _ => do_until_outcome n' (S k)
        end
  end.

End DoUntilDef.

End DoUntil.

(** ** [repeat_until_value] (loop.hh) *)

Module RepeatUntilValue.

Section RepeatUntilValueDef.
Variable T : Type.
(** The future the [k]-th call of the action returns. *)
Variable action : nat -> fut (option T).
Variable need_preempt : nat -> bool.

(** What [repeat_until_value] returns synchronously: a ready (possibly
    failed) future, the future of a [repeat_until_value_state] attached
    to the [calls]-th future with [set_callback], or one created with
    [std::nullopt] and scheduled. *)
Inductive ruv_return : Type :=
  | ruv_ready (r : res T)
  | ruv_state_waiting (calls : nat) (f : fut (option T)) (np : nat)
  | ruv_state_scheduled (calls np : nat).

(** The [do { ... } while (!need_preempt())] loop of [repeat_until_value]. *)
Fixpoint repeat_until_value_loop (fuel k np : nat) : option ruv_return :=
  match fuel with
  | 0 => None
  | S fuel' =>
      let f := action k in
      if negb (available f) then Some (ruv_state_waiting (S k) f np)
      else
        match fut_res f with
        | Exn e => Some (ruv_ready (Exn e))
        | Val (Some v) => Some (ruv_ready (Val v))
        | Val None =>
            if need_preempt np then Some (ruv_state_scheduled (S k) (S np))
            else repeat_until_value_loop fuel' (S k) (S np)
        end
  end.

Definition repeat_until_value (fuel : nat) : option ruv_return :=
  repeat_until_value_loop fuel 0 0.

(** Outcome of one [repeat_until_value_state::run_and_dispose()]. *)
Inductive ruv_step : Type :=
  | ruv_done (r : res T)
  | ruv_wait (calls : nat) (f : fut (option T))
  | ruv_rescheduled (calls np : nat).

(** Its [do { ... } while (!need_preempt())] loop; [get0()] of a failed
    future throws and the [catch] fails the promise. *)
Fixpoint ruv_state_loop (fuel k np : nat) : ruv_step :=
  match fuel with
  | 0 => ruv_rescheduled k np
  | S fuel' =>
      let f := action k in
      if negb (available f) then ruv_wait (S k) f
      else
        match fut_res f with
        | Exn e => ruv_done (Exn e)
        | Val (Some v) => ruv_done (Val v)
        | Val None =>
            if need_preempt np then ruv_rescheduled (S k) (S np)
            else ruv_state_loop fuel' (S k) (S np)
        end
  end.

(** [run_and_dispose()] with [_state] holding [st]; after
    [schedule(this)] it holds [std::nullopt]. *)
Definition ruv_state_run (fuel : nat) (st : res (option T)) (k np : nat) : ruv_step :=
  match st with
  | Exn e => ruv_done (Exn e)
  | Val (Some v) => ruv_done (Val v)
  | Val None => ruv_state_loop fuel k np
  end.

Fixpoint ruv_drive (fuel inner : nat) (st : res (option T)) (k np : nat)
  : option (res T) :=
  match fuel with
  | 0 => None
  | S fuel' =>
      match ruv_state_run inner st k np with
      | ruv_done r => Some r
      | ruv_wait k' f => ruv_drive fuel' inner (fut_res f) k' (np + (k' - S k))
      | ruv_rescheduled k' np' => ruv_drive fuel' inner (Val None) k' np'
      end
  end.

(** [repeat_until_value(action)] followed by the reactor. *)
Definition repeat_until_value_run (fuel inner : nat) : option (res T) :=
  match repeat_until_value fuel with
  | None => None
  | Some (ruv_ready r) => Some r
  | Some (ruv_state_waiting k f np) => ruv_drive fuel inner (fut_res f) k np
  | Some (ruv_state_scheduled k np) => ruv_drive fuel inner (Val None) k np
  end.

(** The documented outcome: the first engaged [optional]'s value, or the
    error of the first call that fails before it. *)
Fixpoint ruv_outcome (n k : nat) : option (res T) :=
  match n with
  | 0 => None
  | S n' =>
      match fut_res (action k) with
      | Exn e => Some (Exn e)
      | Val (Some v) => Some (Val v)
      | Val None => ruv_outcome n' (S k)
      end
  end.

End RepeatUntilValueDef.

End RepeatUntilValue.

(** ** Renaming and linking with overwrite control (file.cc) *)

Module FileUtil.

(** The enumerators of [directory_entry_type]; the code below only
    tests for [directory]. *)
Inductive directory_entry_type : Type :=
  | block_device | char_device | directory | fifo | link | regular | socket.

Definition is_directory (t : directory_entry_type) : bool :=
  match t with directory => true | _ => false end.

(** The fields of [stat_data] the code reads. *)
Record stat_data := { device_id : nat; inode_number : nat; type : directory_entry_type }.

(** [enum class allow_overwrite] (file.hh). *)
Inductive allow_overwrite : Type := never | always | if_same | if_not_same.

Definition allow_overwrite_eqb (a b : allow_overwrite) : bool :=
  match a, b with
  | never, never | always, always | if_same, if_same | if_not_same, if_not_same => true
  | _, _ => false
  end.

(** The [errno] values the code produces, and any other one a system
    call fails with. *)
Inductive errno : Type := ENOTDIR | EISDIR | EEXIST | errno_other (n : nat).

Definition errno_eqb (a b : errno) : bool :=
  match a, b with
  | ENOTDIR, ENOTDIR | EISDIR, EISDIR | EEXIST, EEXIST => true
  | errno_other n, errno_other m => n =? m
  | _, _ => false
  end.

(** [is_same_file(sd1, sd2)] *)
Definition is_same_file (sd1 sd2 : stat_data) : bool :=
  (device_id sd1 =? device_id sd2) && (inode_number sd1 =? inode_number sd2).

(** What [rename_file_ext] does once [stat_files] has produced the two
    [stat_data]: fail with an [errno], remove [oldpath], or call
    [rename_file(oldpath, newpath)]. *)
Inductive rename_action : Type :=
  | rename_failed (e : errno)
  | remove_oldpath
  | rename_over_newpath.

(** The continuation of [stat_files] in [rename_file_ext]. *)
Definition rename_file_ext (sd1 sd2 : stat_data) (flag : allow_overwrite) : rename_action :=
  let same := is_same_file sd1 sd2 in
  let error :=
    if is_directory (type sd1) then
      if negb (is_directory (type sd2)) then Some ENOTDIR else None
    else if is_directory (type sd2) then Some EISDIR
    else if allow_overwrite_eqb flag never ||
            (allow_overwrite_eqb flag if_same && negb same)
    then Some EEXIST
    else None in
  match error with
  | Some e => rename_failed e
  | None => if same then remove_oldpath else rename_over_newpath
  end.

(** The outcome of [link_file(oldpath, newpath, allow_same)], given how
    the [link] system call ended and whether the two paths name the same
    file (asked only on [EEXIST]). *)
Definition link_file (allow_same : bool) (link_error : option errno) (same : bool)
  : option errno :=
  if negb allow_same then link_error
  else
    match link_error with
    | None => None
    | Some error =>
        let error' := if errno_eqb error EEXIST then (if same then None else Some error)
                      else Some error in
        error'
    end.

End FileUtil.

(** ** The second copy of the file helpers kept in log.cc *)

Module LogFileUtil.
Import FileUtil.

(** The continuation of [stat_files] in log.cc's [rename_file_ext]. *)
Definition rename_file_ext (sd1 sd2 : stat_data) (flag : allow_overwrite) : rename_action :=
  let same := is_same_file sd1 sd2 in
  let error :=
    if is_directory (type sd1) then
      if negb (is_directory (type sd2)) then Some ENOTDIR else None
    else if is_directory (type sd2) then Some EISDIR
    else if allow_overwrite_eqb flag never ||
            (allow_overwrite_eqb flag if_same && negb same) ||
            (allow_overwrite_eqb flag if_not_same && same)
    then Some EEXIST
    else None in
  match error with
  | Some e => rename_failed e
  | None => if same then remove_oldpath else rename_over_newpath
  end.

(** What [link_file_ext] does: the first [link_file] succeeded, or it
    fails with an [errno], or [newpath] already names the same file, or
    [newpath] is removed and the link retried. *)
Inductive link_action : Type :=
  | linked
  | link_failed (e : errno)
  | already_linked
  | remove_newpath_and_relink.

(** [link_file_ext(oldpath, newpath, flag)], given how the first
    [link_file] ended and whether the two paths name the same file
    ([same_file] is only called on [EEXIST]). *)
Definition link_file_ext (link_error : option errno) (same : bool) (flag : allow_overwrite)
  : link_action :=
  match link_error with
  | None => linked
  | Some error =>
      if negb (errno_eqb error EEXIST) || allow_overwrite_eqb flag never then
        link_failed error
      else if (allow_overwrite_eqb flag if_same && negb same) ||
              (allow_overwrite_eqb flag if_not_same && same) then
        link_failed EEXIST
      else if same then already_linked
      else remove_newpath_and_relink
  end.

End LogFileUtil.

(** ** [basic_sstring] (sstring.hh) *)

Module SString.
Import Ascii BinNat.

(** [sstring] is [basic_sstring<char, uint32_t, 15>]: [max_size] is 15,
    [NulTerminate] holds, so [padding()] is 1, and [size_type] is
    [uint32_t]. *)
Definition max_size : nat := 15.
Definition padding : nat := 1.

(** [size_type(size) != size]: the size does not fit in a [uint32_t]. *)
Definition size_overflows (n : nat) : bool := negb (N.ltb (N.of_nat n) (2 ^ 32)%N).

(** The union [contents]: a string stored in [u.internal.str] (then
    [u.internal.size >= 0]) or in a heap buffer [u.external.str] (then
    [u.internal.size] is -1). The characters are those of
    [str()[0 .. size())]. *)
Inductive sstring : Type :=
  | internal (chars : list ascii)
  | external (chars : list ascii).

Definition str (s : sstring) : list ascii :=
  match s with internal l | external l => l end.

Definition is_internal (s : sstring) : bool :=
  match s with internal _ => true | external _ => false end.

Definition size (s : sstring) : nat := length (str s).

(** [empty()] reads [u.internal.size == 0]; for an external string that
    byte holds -1. *)
Definition empty (s : sstring) : bool :=
  match s with internal l => length l =? 0 | external _ => false end.

(** [basic_sstring(initialized_later, size)] and
    [basic_sstring(const char_type*, size)], with the characters written
    into the buffer: [None] is the [overflow_error]. *)
Definition make (l : list ascii) : option sstring :=
  if size_overflows (length l) then None
  else if length l + padding <=? max_size then Some (internal l)
  else Some (external l).

(** [operator+]: [initialized_later(size() + x.size())], then both
    copies. *)
Definition plus (x y : sstring) : option sstring := make (str x ++ str y).

(** [p[i] = c], inside the buffer. *)
Fixpoint set_nth (l : list ascii) (i : nat) (c : ascii) : list ascii :=
  match l, i with
  | [], _ => []
  | _ :: l', 0 => c :: l'
  | a :: l', S i' => a :: set_nth l' i' c
  end.

(** [std::copy(src, src + n, p)] into a buffer, from index [p]. *)
Fixpoint copy_into (src dst : list ascii) (p : nat) : list ascii :=
  match src with
  | [] => dst
  | c :: src' => copy_into src' (set_nth dst p c) (S p)
  end.

Definition with_chars (s : sstring) (l : list ascii) : sstring :=
  match s with internal _ => internal l | external _ => external l end.

(** [replace(pos, n1, s, n2)], the [n2] characters at [s] given as a
    list: [None] is the [out_of_range] (or an [overflow_error] of the
    new string). *)
Definition replace (x : sstring) (pos n1 : nat) (s : list ascii) : option sstring :=
  if size x <? pos then None
  else
    let n1 := if size x - pos <? n1 then size x - pos else n1 in
    let n2 := length s in
    if n1 =? n2 then Some (with_chars x (copy_into s (str x) pos))
    else make (firstn pos (str x) ++ s ++ skipn (pos + n1) (str x)).

(** [erase(first, last)] is [replace(first - begin(), last - first, nullptr, 0)]. *)
Definition erase (x : sstring) (pos len : nat) : option sstring := replace x pos len [].

(** [substr(from, len)]. *)
Definition substr (s : sstring) (from len : nat) : option sstring :=
  if size s <? from then None
  else
    let len := if size s - from <? len then size s - from else len in
    if len =? 0 then make []
    else make (firstn len (skipn from (str s))).

(** [shrink(n)], called with [n < size()]. *)
Definition shrink (s : sstring) (n : nat) : option sstring :=
  match s with
  | internal l => Some (internal (firstn n l))
  | external l =>
      if n + padding <=? max_size then make (firstn n l)
      else Some (external (firstn n l))
  end.

(** [resize(n, c)]; [extend(count, c)] is
    [*this += basic_sstring(count, c)]. *)
Definition resize (s : sstring) (n : nat) (c : ascii) : option sstring :=
  if size s <? n then
    match make (repeat c (n - size s)) with
    | Some t => plus s t
    | None => None
    end
  else if n <? size s then shrink s n
  else Some s.

(** [find(t, pos)]: [None] is [npos]. *)
Fixpoint find_from (l : list ascii) (t : ascii) (i : nat) : option nat :=
  match l with
  | [] => None
  | c :: l' => if Ascii.eqb c t then Some i else find_from l' t (S i)
  end.

Definition find (s : sstring) (t : ascii) (pos : nat) : option nat :=
  find_from (skipn pos (str s)) t pos.

(** The inner loop of [find(s, pos)]: [j] reaches [c_str_end]. *)
Fixpoint matches_at (l needle : list ascii) : bool :=
  match needle, l with
  | [], _ => true
  | _ :: _, [] => false
  | b :: needle', a :: l' => Ascii.eqb a b && matches_at l' needle'
  end.

Fixpoint find_str_from (l needle : list ascii) (i : nat) : option nat :=
  match l with
  | [] => None
  | _ :: l' => if matches_at l needle then Some i else find_str_from l' needle (S i)
  end.

Definition find_str (s x : sstring) (pos : nat) : option nat :=
  find_str_from (skipn pos (str s)) (str x) pos.

(** The [do ... while (p != str_start)] loop of [find_last_of], from
    index [p] down to 0. *)
Fixpoint scan_down (l : list ascii) (c : ascii) (p : nat) : option nat :=
  if Ascii.eqb (nth p l zero) c then Some p
  else match p with 0 => None | S p' => scan_down l c p' end.

Definition find_last_of (s : sstring) (c : ascii) (pos : nat) : option nat :=
  if size s =? 0 then None
  else scan_down (str s) c (if size s <=? pos then size s - 1 else pos).

(** [std::char_traits<char>::compare(p, q, n)], comparing characters as
    [unsigned char]; the sign of its result. *)
Fixpoint traits_compare (p q : list ascii) (n : nat) : comparison :=
  match n, p, q with
  | S n', a :: p', b :: q' =>
      match N.compare (N_of_ascii a) (N_of_ascii b) with
      | Eq => traits_compare p' q' n'
      | c => c
      end
  | _, _, _ => Eq
  end.

(** [compare(x)]: the sign of its result. *)
Definition compare (s x : sstring) : comparison :=
  match traits_compare (str s) (str x) (Nat.min (size s) (size x)) with
  | Eq => if size s <? size x then Lt else if size x <? size s then Gt else Eq
  | c => c
  end.

(** [compare(pos, sz, x)]: [None] is the [out_of_range]. *)
Definition compare_at (s : sstring) (pos sz : nat) (x : sstring) : option comparison :=
  if size s <? pos then None
  else
    let sz := Nat.min (size s - pos) sz in
    match traits_compare (skipn pos (str s)) (str x) (Nat.min sz (size x)) with
    | Eq => Some (if sz <? size x then Lt else if size x <? sz then Gt else Eq)
    | c => Some c
    end.

(** [std::equal(b, e, x)] over the range [[b, e)]. *)
Fixpoint equal (p q : list ascii) : bool :=
  match p, q with
  | [], _ => true
  | a :: p', b :: q' => Ascii.eqb a b && equal p' q'
  | _ :: _, [] => false
  end.

(** [operator==] and [operator<]. *)
Definition eqb (s x : sstring) : bool :=
  (size s =? size x) && equal (str s) (str x).

Definition ltb (s x : sstring) : bool :=
  match compare s x with Lt => true | _ => false end.

(** The operations a string goes through after its construction. *)
Inductive op : Type :=
  | op_plus (y : list ascii)
  | op_substr (from len : nat)
  | op_replace (pos n1 : nat) (s : list ascii)
  | op_erase (pos len : nat)
  | op_resize (n : nat) (c : ascii).

Definition apply_op (s : sstring) (o : op) : option sstring :=
  match o with
  | op_plus y => match make y with Some t => plus s t | None => None end
  | op_substr from len => substr s from len
  | op_replace pos n1 y => replace s pos n1 y
  | op_erase pos len => erase s pos len
  | op_resize n c => resize s n c
  end.

Fixpoint run_ops (s : sstring) (os : list op) : option sstring :=
  match os with
  | [] => Some s
  | o :: os' => match apply_op s o with Some t => run_ops t os' | None => None end
  end.

End SString.

(** ** Temporary file names (tmp_file.cc) *)

Module TmpFile.
Import Ascii FileUtil.
Local Open Scope char_scope.

(** [default_tmp_name_template] (tmp_file.hh): ["XXXXXX.tmp"]. *)
Definition default_tmp_name_template : list ascii :=
  ["X"; "X"; "X"; "X"; "X"; "X"; "."; "t"; "m"; "p"].

Definition XX : list ascii := ["X"; "X"].

(** [charset]: ["0123456789abcdef"]. *)
Definition charset : list ascii :=
  ["0"; "1"; "2"; "3"; "4"; "5"; "6"; "7"; "8"; "9"; "a"; "b"; "c"; "d"; "e"; "f"].

(** [charset[d]], for a [d] drawn by [dist(engine)] in [[0, 15]]. *)
Definition charset_at (d : nat) : ascii := nth d charset "0".

(** [std::string::find(needle)]: the first index at which the whole
    needle occurs. *)
Fixpoint string_find_from (l needle : list ascii) (i : nat) : option nat :=
  if SString.matches_at l needle then Some i
  else match l with [] => None | _ :: l' => string_find_from l' needle (S i) end.

Definition string_find (l needle : list ascii) : option nat := string_find_from l needle 0.

(** [while (pos < end && filename[pos] == 'X') filename[pos++] = charset[dist(engine)];]
    with [n = end - pos]; [draw k] is the [k]-th value of [dist(engine)]
    in this call. *)
Fixpoint fill_X (n : nat) (filename : list ascii) (pos k : nat) (draw : nat -> nat)
  : list ascii :=
  match n with
  | 0 => filename
  | S n' =>
      if Ascii.eqb (nth pos filename "0") "X" then
        fill_X n' (SString.set_nth filename pos (charset_at (draw k))) (S pos) (S k) draw
      else filename
  end.

(** A path as the list of its components; [path_template] is split by
    [parent_path()] and [filename()]. [stat] is [file_stat(path)], failing
    with an [errno] or giving the type of what [path] names. *)
Definition generate_tmp_name (parent : list (list ascii)) (filename : list ascii)
    (draw : nat -> nat) (stat : list (list ascii) -> errno + directory_entry_type)
  : errno + list (list ascii) :=
  let path := match parent with [] => [["."]] | _ => parent end in
  let '(path, filename, pos) :=
    match string_find filename XX with
    | Some pos => (path, filename, pos)
    | None =>
        (path ++ [filename], default_tmp_name_template,
         match string_find default_tmp_name_template XX with Some p => p | None => 0 end)
    end in
  let filename := fill_X (length filename - pos) filename pos 0 draw in
  match stat path with
  | inl e => inl e
  | inr t => if is_directory t then inr (path ++ [filename]) else inl ENOTDIR
  end.

End TmpFile.

(** ** [deferred_action] (defer.hh) *)

Module Defer.

(** An object [deferred_action<Func>]: [_func], named by the index of
    the [defer(func)] call that created it, and [_cancelled]. *)
Record deferred_action := { func : nat; cancelled : bool }.

(** The objects alive, by address ([None] where none lives), the number
    of [defer] calls so far, and the calls [_func()] made, the latest
    first. *)
Record state := {
  objects : list (option deferred_action);
  next_func : nat;
  calls : list nat
}.

Definition init : state := {| objects := []; next_func := 0; calls := [] |}.

Inductive event : Type :=
  | ev_defer                        (* [defer(func)] at a new address *)
  | ev_move_construct (src : nat)   (* [deferred_action(deferred_action&& o)] at a new address *)
  | ev_move_assign (dst src : nat)  (* [operator=(deferred_action&& o)] *)
  | ev_cancel (a : nat)             (* [cancel()] *)
  | ev_destroy (a : nat).           (* [~deferred_action()] *)

Fixpoint list_set {A : Type} (l : list A) (i : nat) (x : A) : list A :=
  match l, i with
  | [], _ => []
  | _ :: l', 0 => x :: l'
  | y :: l', S i' => y :: list_set l' i' x
  end.

Definition live (st : state) (a : nat) : option deferred_action :=
  match nth_error (objects st) a with Some (Some d) => Some d | _ => None end.

(** [~deferred_action()]: [if (!_cancelled) _func();]. *)
Definition run_destructor (d : deferred_action) (cs : list nat) : list nat :=
  if cancelled d then cs else func d :: cs.

(** An event on a live object; [None] for an event on no live object. *)
Definition step (st : state) (ev : event) : option state :=
  match ev with
  | ev_defer =>
      Some {| objects := objects st ++ [Some {| func := next_func st; cancelled := false |}];
              next_func := S (next_func st);
              calls := calls st |}
  | ev_move_construct src =>
      match live st src with
      | Some o =>
          (* [_func(std::move(o._func)), _cancelled(o._cancelled)], then [o._cancelled = true] *)
          Some {| objects := list_set (objects st) src (Some {| func := func o; cancelled := true |})
                             ++ [Some {| func := func o; cancelled := cancelled o |}];
                  next_func := next_func st;
                  calls := calls st |}
      | None => None
      end
  | ev_move_assign dst src =>
      match live st dst, live st src with
      | Some d, Some o =>
          if dst =? src then Some st
          else
            (* [this->~deferred_action(); new (this) deferred_action(std::move(o));] *)
            Some {| objects := list_set (list_set (objects st) dst
                                           (Some {| func := func o; cancelled := cancelled o |}))
                                        src (Some {| func := func o; cancelled := true |});
                    next_func := next_func st;
                    calls := run_destructor d (calls st) |}
      | _, _ => None
      end
  | ev_cancel a =>
      match live st a with
      | Some d =>
          Some {| objects := list_set (objects st) a (Some {| func := func d; cancelled := true |});
                  next_func := next_func st;
                  calls := calls st |}
      | None => None
      end
  | ev_destroy a =>
      match live st a with
      | Some d =>
          Some {| objects := list_set (objects st) a None;
                  next_func := next_func st;
                  calls := run_destructor d (calls st) |}
      | None => None
      end
  end.

Fixpoint run (st : state) (evs : list event) : option state :=
  match evs with
  | [] => Some st
  | ev :: evs' => match step st ev with Some st' => run st' evs' | None => None end
  end.

End Defer.

(** ** Loggers (log.cc) *)

Module Log.
Import Ascii.

Inductive log_level : Type := trace | debug | info | warn | error.

(** [log_level_names], in the order of the [std::map] (that of the
    enumerators). *)
Definition log_level_names : list (log_level * SString.sstring) :=
  [(trace, SString.internal ["t"; "r"; "a"; "c"; "e"]%char);
   (debug, SString.internal ["d"; "e"; "b"; "u"; "g"]%char);
   (info, SString.internal ["i"; "n"; "f"; "o"]%char);
   (warn, SString.internal ["w"; "a"; "r"; "n"]%char);
   (error, SString.internal ["e"; "r"; "r"; "o"; "r"]%char)].

Definition log_level_eqb (a b : log_level) : bool :=
  match a, b with
  | trace, trace | debug, debug | info, info | warn, warn | error, error => true
  | _, _ => false
  end.

(** [std::map::at]; [None] where it throws [std::out_of_range]. *)
Fixpoint level_map_at {V : Type} (m : list (log_level * V)) (k : log_level) : option V :=
  match m with
  | [] => None
  | (k', v) :: m' => if log_level_eqb k' k then Some v else level_map_at m' k
  end.

(** [operator<<(std::ostream&, log_level)]: the name written. *)
Definition log_level_name (level : log_level) : option SString.sstring :=
  level_map_at log_level_names level.

(** The loop of [operator>>(std::istream&, log_level&)] over
    [log_level_names]; [None] where it sets [failbit]. *)
Fixpoint find_level (names : list (log_level * SString.sstring)) (s : SString.sstring)
  : option log_level :=
  match names with
  | [] => None
  | (l, n) :: names' => if SString.eqb s n then Some l else find_level names' s
  end.

(** [operator>>(std::istream&, log_level&)], once [in >> s] has read the
    word [s]. *)
Definition parse_log_level (s : SString.sstring) : option log_level :=
  find_level log_level_names s.

(** [logger_registry::_loggers]: each registered name with the level of
    the logger it points to. *)
Definition registry : Type := list (SString.sstring * log_level).

(** [_loggers.find(name)], keys compared as [std::map] does (neither
    precedes the other, [compare] returns 0). *)
Fixpoint lookup (r : registry) (name : SString.sstring) : option log_level :=
  match r with
  | [] => None
  | (n, l) :: r' => if SString.eqb n name then Some l else lookup r' name
  end.

(** [get_logger_level(name)]: [_loggers.at(name)->level()]. *)
Definition get_logger_level (r : registry) (name : SString.sstring) : option log_level :=
  lookup r name.

(** [set_all_loggers_level(level)]. *)
Definition set_all_loggers_level (r : registry) (level : log_level) : registry :=
  map (fun p => (fst p, level)) r.

(** [set_logger_level(name, level)]: [_loggers.at(name)->set_level(level)];
    [None] where [at] throws [std::out_of_range]. *)
Fixpoint set_logger_level (r : registry) (name : SString.sstring) (level : log_level)
  : option registry :=
  match r with
  | [] => None
  | (n, l) :: r' =>
      if SString.eqb n name then Some ((n, level) :: r')
      else option_map (cons (n, l)) (set_logger_level r' name level)
  end.

(** [register_logger(l)] for a logger named [name] at level [level];
    [None] where it throws ["registered twice"]. *)
Definition register_logger (r : registry) (name : SString.sstring) (level : log_level)
  : option registry :=
  match lookup r name with
  | Some _ => None
  | None => Some (r ++ [(name, level)])
  end.

(** [unregister_logger(l)]: [_loggers.erase(l->name())]. *)
Definition unregister_logger (r : registry) (name : SString.sstring) : registry :=
  filter (fun p => negb (SString.eqb (fst p) name)) r.

Module logger_ostream_type.
Inductive t : Type := none | stdout | stderr.
End logger_ostream_type.

Module logger_timestamp_style.
Inductive t : Type := none | boot | real.
End logger_timestamp_style.

(** The fields of [logging_settings] that [apply_logging_settings] reads;
    [logger_levels] in its iteration order. *)
Record logging_settings := {
  logger_levels : list (SString.sstring * log_level);
  default_level : log_level;
  stdout_enabled : bool;
  syslog_enabled : bool;
  logger_ostream : logger_ostream_type.t;
  stdout_timestamp_style : logger_timestamp_style.t
}.

Inductive ostream_target : Type := cout | cerr.

Inductive timestamp_printer : Type :=
  | print_no_timestamp
  | print_space_and_boot_timestamp
  | print_space_and_real_timestamp.

(** [logger::_out], [logger::_ostream], [logger::_syslog] and
    [print_timestamp]. *)
Record logger_globals := {
  out : ostream_target;
  ostream : bool;
  syslog : bool;
  print_timestamp : timestamp_printer
}.

(** The loop over [s.logger_levels]: the registry when it ends, and the
    name of the [Unknown logger] where it throws. *)
Fixpoint set_levels (r : registry) (ps : list (SString.sstring * log_level))
  : registry * option SString.sstring :=
  match ps with
  | [] => (r, None)
  | (n, l) :: ps' =>
      match set_logger_level r n l with
      | Some r' => set_levels r' ps'
      | None => (r, Some n)
      end
  end.

Definition set_ostream (g : logger_globals) (o : logger_ostream_type.t) : logger_globals :=
  match o with
  | logger_ostream_type.none =>
      {| out := out g; ostream := false; syslog := syslog g; print_timestamp := print_timestamp g |}
  | logger_ostream_type.stdout =>
      {| out := cout; ostream := true; syslog := syslog g; print_timestamp := print_timestamp g |}
  | logger_ostream_type.stderr =>
      {| out := cerr; ostream := true; syslog := syslog g; print_timestamp := print_timestamp g |}
  end.

Definition timestamp_of (s : logger_timestamp_style.t) : timestamp_printer :=
  match s with
  | logger_timestamp_style.none => print_no_timestamp
  | logger_timestamp_style.boot => print_space_and_boot_timestamp
  | logger_timestamp_style.real => print_space_and_real_timestamp
  end.

(** [apply_logging_settings(s)] on the global registry [r] and the
    globals [g]: the registry and globals after it, and the unknown
    logger name where it throws. *)
Definition apply_logging_settings (g : logger_globals) (r : registry) (s : logging_settings)
  : registry * logger_globals * option SString.sstring :=
  let r := set_all_loggers_level r (default_level s) in
  match set_levels r (logger_levels s) with
  | (r, Some n) => (r, g, Some n)
  | (r, None) =>
      let o := if stdout_enabled s then logger_ostream s else logger_ostream_type.none in
      let g := set_ostream g o in
      let g := {| out := out g; ostream := ostream g; syslog := syslog_enabled s;
                  print_timestamp := print_timestamp g |} in
      let g := {| out := out g; ostream := ostream g; syslog := syslog g;
                  print_timestamp := timestamp_of (stdout_timestamp_style s) |} in
      (r, g, None)
  end.

End Log.

(** * Properties *)

(** ** with_lock *)

Module WithLockProofs.
Import WithLock.

(** C1: whatever the function does (return a value, return a failed
    future or throw), [unlock()] is called exactly once; when the lock is
    acquired the result is the function's, and when [lock()] fails the
    result is that error. *)
Theorem with_lock_releases_once :
  forall (L R : Type) (LI : Lockable L) (l : L) (func : callback_outcome R),
    let '(r, _, tr) := with_lock l func in
    count_unlock tr = 1 /\
    (fst (lock l) = Val tt -> r = futurize func /\ In ev_func tr) /\
    (forall e, fst (lock l) = Exn e -> r = Exn e).
Proof.
  intros L R LI l func. unfold with_lock.
  destruct (lock l) as [lr l1] eqn:Hl. simpl.
  destruct lr as [[]|e]; simpl.
  - repeat split; intros; try discriminate; simpl; auto.
  - repeat split; intros; try discriminate. congruence.
Qed.

(** C10: when [lock()] returns a failed future, [with_lock] still calls
    [unlock()] exactly once, never calls the function, and returns the
    lock's error. *)
Theorem with_lock_unlocks_after_failed_lock :
  forall (L R : Type) (LI : Lockable L) (l : L) (func : callback_outcome R) e,
    fst (lock l) = Exn e ->
    let '(r, _, tr) := with_lock l func in
    r = Exn e /\ count_unlock tr = 1 /\ ~ In ev_func tr /\
    tr = [ev_lock; ev_unlock].
Proof.
  intros L R LI l func e H. unfold with_lock.
  destruct (lock l) as [lr l1]. simpl in H. subst lr. simpl.
  repeat split; auto.
  intros [Hc|[Hc|Hc]]; discriminate || contradiction.
Qed.

Lemma with_lock_unlocks_after_failed_lock_witness :
  fst (lock {| tl_fail := Some (user_error 1); tl_held := 0 |})
    = Exn (user_error 1) /\
  (let '(r, _, tr) :=
     with_lock {| tl_fail := Some (user_error 1); tl_held := 0 |}
               (Returns (Val 5)) in
   r = Exn (user_error 1) /\ count_unlock tr = 1 /\ ~ In ev_func tr /\
   tr = [ev_lock; ev_unlock]).
Proof.
  split.
  - reflexivity.
  - apply (with_lock_unlocks_after_failed_lock test_lock nat _
             {| tl_fail := Some (user_error 1); tl_held := 0 |}
             (Returns (Val 5)) (user_error 1)).
    reflexivity.
Defined.

End WithLockProofs.

(** ** gate *)

Module GateProofs.
Import Gate.

(** C9: the destructor succeeds exactly when the count is zero, whether
    or not the gate was closed. *)
Theorem gate_destroy_requires_zero_count :
  forall g : gate,
    (gate_destroy g = destroyed_ok <-> count g = 0) /\
    (count g <> 0 -> gate_destroy g = assertion_failure) /\
    gate_destroy {| count := 0; stopped := None |} = destroyed_ok.
Proof.
  intros [c s]. unfold gate_destroy; simpl.
  destruct (Nat.eqb_spec c 0); repeat split; intros; congruence.
Qed.

End GateProofs.

(** ** Abortable sleep *)

Module SleepProofs.
Import Sleep.

Lemma run_app : forall w evs1 evs2, run w (evs1 ++ evs2) = run (run w evs1) evs2.
Proof. intros. unfold run. apply fold_left_app. Qed.

(** A property every event preserves holds after any run. *)
Lemma run_preserves :
  forall P : world -> Prop,
    (forall w ev, P w -> P (step w ev)) ->
    forall evs w, P w -> P (run w evs).
Proof.
  intros P HP evs. induction evs as [|ev evs IH]; intros w Hw; simpl; auto.
Qed.

Definition aborted_inv (w : world) : Prop :=
  as_aborted w = true /\ done w = Some (Exn sleep_aborted) /\
  (tmr w = Cancelled \/ tmr w = Unarmed).

Definition fired_inv (w : world) : Prop :=
  done w = Some (Val tt) /\ tmr w = Fired.

Lemma aborted_inv_step : forall w ev, aborted_inv w -> aborted_inv (step w ev).
Proof.
  intros [a d t s x] ev [Ha [Hd Ht]]; simpl in *; subst.
  destruct ev; simpl.
  - repeat split; auto.
  - destruct Ht as [-> | ->]; repeat split; auto.
  - repeat split; auto.
Qed.

Lemma fired_inv_step : forall w ev, fired_inv w -> fired_inv (step w ev).
Proof.
  intros [a d t s x] ev [Hd Ht]; simpl in *; subst.
  destruct ev; simpl.
  - destruct a; [split; reflexivity|].
    destruct s; simpl; split; reflexivity.
  - split; reflexivity.
  - split; reflexivity.
Qed.

Lemma initial_finally : forall evs,
  run (sleeper_ctor false) (finally_runs :: evs) = run (sleeper_ctor false) evs.
Proof. reflexivity. Qed.

(** C2: with an abort source already aborted at entry the sleep fails
    with [sleep_aborted] whatever happens next; otherwise the first of the
    abort and the timer decides: an abort fails it with [sleep_aborted] and
    leaves the timer cancelled, the timer resolves it with success and a
    later abort changes nothing. *)
Theorem sleep_abortable_abort_semantics :
  forall (aborted_at_entry : bool) (evs : list event),
    let w := sleep_abortable aborted_at_entry evs in
    if aborted_at_entry then done w = Some (Exn sleep_aborted)
    else
      match first_decisive evs with
      | Some request_abort => done w = Some (Exn sleep_aborted) /\ tmr w = Cancelled
      | Some timer_fires => done w = Some (Val tt)
      | _ => done w = None
      end.
Proof.
  intros [|] evs; simpl; unfold sleep_abortable.
  - assert (H : aborted_inv (run (sleeper_ctor true) evs)).
    { apply run_preserves; [exact aborted_inv_step|].
      repeat split; auto. }
    destruct H as [_ [H _]]; exact H.
  - induction evs as [|ev evs IH]; [reflexivity|].
    destruct ev; simpl.
    + assert (H : aborted_inv (run (step (sleeper_ctor false) request_abort) evs)).
      { apply run_preserves; [exact aborted_inv_step|].
        repeat split; auto. }
      destruct H as [_ [Hd [Ht|Ht]]].
      * split; assumption.
      * exfalso.
        assert (Hc : forall w, tmr w = Cancelled -> tmr (run w evs) = Cancelled).
        { intros w0 Hw0. apply (run_preserves (fun w => tmr w = Cancelled)); auto.
          intros [a d t s x] [] Ht0; simpl in *; subst; simpl;
            repeat (match goal with |- context [if ?b then _ else _] => destruct b end);
            simpl; auto; try destruct d; auto. }
        rewrite Hc in Ht by reflexivity. discriminate.
    + assert (H : fired_inv (run (step (sleeper_ctor false) timer_fires) evs)).
      { apply run_preserves; [exact fired_inv_step|]. split; reflexivity. }
      destruct H as [H _]; exact H.
    + exact IH.
Qed.

(** C8: without an abort source, an engine shutdown that comes first
    fails the sleep with [sleep_aborted]; the duration elapsing first
    resolves it with success (the timeout error is swallowed). *)
Theorem sleep_abortable_nosrc_semantics :
  forall evs : list engine_event,
    sleep_abortable_nosrc evs =
      match evs with
      | [] => None
      | stop_requested :: _ => Some (Exn sleep_aborted)
      | duration_elapsed :: _ => Some (Val tt)
      end.
Proof.
  intros [|[] evs]; reflexivity.
Qed.

End SleepProofs.

(** ** do_for_each *)

Module DoForEachProofs.
Import DoForEach.

Section Proofs.
Variable A : Type.
Variable action : A -> fut unit.
Variable need_preempt : nat -> bool.

(** Running the loop and then the reactor on what it leaves behind gives
    the sequential semantics, appended to the trace so far. *)
Lemma loop_drive :
  forall l fuel np tr,
    length l <= fuel ->
    let '(o, np', tr') := loop A action need_preempt l np tr in
    drive A action need_preempt fuel o np' tr' =
      Some (fst (sequential_spec A action l),
            tr ++ snd (sequential_spec A action l)).
Proof.
  induction l as [|x l IH]; intros fuel np tr Hlen; simpl.
  - rewrite app_nil_r. destruct fuel; reflexivity.
  - destruct fuel as [|fuel]; [simpl in Hlen; lia|].
    simpl in Hlen.
    destruct (action x) as [[[]|e]|[[]|e]] eqn:Ha; simpl.
    + (* ready value *)
      destruct (need_preempt np).
      * unfold run_and_dispose; simpl. specialize (IH fuel (S np) (tr ++ [invoked x; resolved x (Val tt)])
                  ltac:(lia)).
        destruct (loop A action need_preempt l (S np) _) as [[o np'] tr'].
        destruct (sequential_spec A action l) as [r' trs] eqn:Hs.
        rewrite IH. simpl. rewrite <- app_assoc. reflexivity.
      * specialize (IH (S fuel) (S np) (tr ++ [invoked x; resolved x (Val tt)])
                  ltac:(lia)).
        destruct (loop A action need_preempt l (S np) _) as [[o np'] tr'].
        change (drive A action need_preempt (S fuel) o np' tr' =
                Some (fst (let '(r', tr0) := sequential_spec A action l in
                           (r', invoked x :: resolved x (Val tt) :: tr0)),
                      tr ++ snd (let '(r', tr0) := sequential_spec A action l in
                           (r', invoked x :: resolved x (Val tt) :: tr0)))).
        destruct (sequential_spec A action l) as [r' trs] eqn:Hs.
        rewrite IH. simpl. rewrite <- app_assoc. reflexivity.
    + (* ready failure *)
      reflexivity.
    + (* pending, resolves with a value *)
      specialize (IH fuel np ((tr ++ [invoked x]) ++ [resolved x (Val tt)])
                  ltac:(lia)).
      unfold run_and_dispose. simpl.
      destruct (loop A action need_preempt l np _) as [[o np'] tr'].
      destruct (sequential_spec A action l) as [r' trs] eqn:Hs.
      rewrite IH. simpl. rewrite <- !app_assoc. reflexivity.
    + (* pending, resolves with a failure *)
      unfold run_and_dispose. simpl.
      destruct fuel; simpl; rewrite <- !app_assoc; reflexivity.
Qed.

End Proofs.

(** C3: for every action and every pattern of preemption requests,
    [do_for_each] invokes the action on the elements in order, each
    invocation after the previous future resolved, and stops at the first
    failure, whose error the returned future carries. *)
Theorem do_for_each_sequential :
  forall (A : Type) (action : A -> fut unit) (need_preempt : nat -> bool)
         (l : list A),
    do_for_each A action need_preempt l = Some (sequential_spec A action l).
Proof.
  intros A action need_preempt l. unfold do_for_each, do_for_each_impl.
  pose proof (loop_drive A action need_preempt l (length l) 0 [] (le_n _)) as H.
  destruct (loop A action need_preempt l 0 []) as [[o np] tr].
  rewrite H. destruct (sequential_spec A action l); reflexivity.
Qed.

(** A run: the action fails (asynchronously) on 1, so 2 is never visited. *)
Example do_for_each_stops_at_failure :
  do_for_each nat
    (fun n => if n =? 1 then Pending (Exn (user_error 1)) else Ready (Val tt))
    (fun _ => true) [0; 1; 2]
  = Some (Exn (user_error 1),
          [invoked 0; resolved 0 (Val tt); invoked 1; resolved 1 (Exn (user_error 1))]).
Proof. reflexivity. Qed.

End DoForEachProofs.

(** ** repeat *)

Module RepeatProofs.
Import Repeat.

(** C4, as stated, fails: when [need_preempt()] is set as the first ready
    [stop_iteration::yes] is examined, [repeat] allocates a [repeater] and
    attaches it to the future instead of returning a ready future. *)
Lemma repeat_stop_first_call_counterexample :
  let act := fun _ : nat => Ready (Val true) : fut stop_iteration in
  let np := fun _ : nat => true in
  act 0 = Ready (Val true) /\
  repeat act np 1 = Some (repeater_allocated 1 (Ready (Val true)) 1) /\
  repeat act np 1 <> Some returned_ready.
Proof.
  simpl. split; [reflexivity|]. split; [reflexivity|]. discriminate.
Qed.

(** C4 (amended): if the first call returns a ready [stop_iteration::yes]
    and no preemption is requested at that check, [repeat] returns a
    ready future without allocating; if preemption is requested, a
    [repeater] is allocated on that future, and when it runs it resolves
    the promise with success without calling the action again. *)
Theorem repeat_stop_first_call :
  forall (action : nat -> fut stop_iteration) (need_preempt : nat -> bool)
         (fuel fuel' : nat),
    action 0 = Ready (Val true) ->
    repeat action need_preempt (S fuel) =
      (if need_preempt 0
       then Some (repeater_allocated 1 (Ready (Val true)) 1)
       else Some returned_ready) /\
    repeater_run action need_preempt fuel' (fut_res (action 0)) 1 1
      = rep_done (Val tt).
Proof.
  intros action need_preempt fuel fuel' H.
  unfold repeat. simpl. rewrite H. simpl.
  split; [destruct (need_preempt 0); reflexivity | reflexivity].
Qed.

Lemma repeat_stop_first_call_witness :
  let act := fun _ : nat => Ready (Val true) : fut stop_iteration in
  act 0 = Ready (Val true) /\
  (repeat act (fun _ => false) 1 = Some returned_ready /\
   repeater_run act (fun _ => false) 0 (fut_res (act 0)) 1 1 = rep_done (Val tt)).
Proof.
  split.
  - reflexivity.
  - apply (repeat_stop_first_call (fun _ => Ready (Val true)) (fun _ => false) 0 0).
    reflexivity.
Defined.

End RepeatProofs.

(** ** Empty ranges *)

Module EmptyRangeProofs.

(** C5, as stated, fails for [max_concurrent_for_each]: when the [then]
    continuations after [do_until] are not run inline, the returned
    future is not ready when the call returns. *)
Lemma empty_range_ready_counterexample :
  MaxConcurrent.max_concurrent_for_each nat 1 [] false
    = MaxConcurrent.mc_running nat (MaxConcurrent.mc_init nat 1 []) /\
  (forall r, MaxConcurrent.max_concurrent_for_each nat 1 [] false
             <> MaxConcurrent.mc_ready nat r).
Proof.
  split; [reflexivity|]. intros r; discriminate.
Qed.

(** C5 (amended): on an empty range [do_for_each] and [parallel_for_each]
    return a ready future at once without invoking the action.
    [max_concurrent_for_each] with [max_concurrent = S m > 0] never
    invokes the action and resolves with success; it returns a ready
    future at once when its [then] continuations run inline, and
    otherwise completes after the two scheduled continuations. *)
Theorem empty_range_ready :
  forall (A : Type) (action : A -> fut unit) (need_preempt : nat -> bool) (m : nat),
    DoForEach.do_for_each_impl A action need_preempt []
      = (DoForEach.returned A (Val tt), 0, []) /\
    ParallelForEach.parallel_for_each A action []
      = (ParallelForEach.pfe_ready, []) /\
    MaxConcurrent.max_concurrent_for_each A (S m) [] true
      = MaxConcurrent.mc_ready A (Val tt) /\
    MaxConcurrent.max_concurrent_for_each A (S m) [] false
      = MaxConcurrent.mc_running A (MaxConcurrent.mc_init A (S m) []) /\
    option_map (fun st => MaxConcurrent.ph A st)
      (MaxConcurrent.mc_exec A action (S m) (MaxConcurrent.mc_init A (S m) [])
         [MaxConcurrent.ch_loop; MaxConcurrent.ch_finish])
      = Some (MaxConcurrent.Done (Val tt)) /\
    (forall cs,
       match MaxConcurrent.mc_exec A action (S m) (MaxConcurrent.mc_init A (S m) []) cs with
       | Some st => MaxConcurrent.trace A st = []
       | None => True
       end).
Proof.
  intros A action need_preempt m.
  split; [reflexivity|]. split; [reflexivity|].
  split; [unfold MaxConcurrent.max_concurrent_for_each, MaxConcurrent.sem_wait; simpl;
          rewrite ?Nat.leb_refl; reflexivity|].
  split; [reflexivity|].
  split; [unfold MaxConcurrent.mc_exec, MaxConcurrent.mc_next, MaxConcurrent.sem_wait;
          simpl; rewrite ?Nat.leb_refl, ?Nat.sub_diag; reflexivity|].
  (* from an empty range nothing is ever launched, so nothing completes *)
  assert (Hinv : forall cs st,
    MaxConcurrent.rest A st = [] -> MaxConcurrent.inflight A st = [] ->
    MaxConcurrent.trace A st = [] ->
    match MaxConcurrent.mc_exec A action (S m) st cs with
    | Some st' => MaxConcurrent.trace A st' = []
    | None => True
    end).
  { induction cs as [|c cs IH]; intros st Hr Hi Ht; simpl; [exact Ht|].
    destruct st as [r s i e p t]; simpl in *; subst.
    destruct c as [| |n|]; simpl.
    - destruct p; simpl; auto.
      destruct (MaxConcurrent.sem_wait (S m) s) as [g s']; apply IH; reflexivity.
    - destruct p; auto.
    - destruct n; simpl; auto.
    - destruct p; auto. apply IH; reflexivity. }
  intros cs. apply Hinv; reflexivity.
Qed.

End EmptyRangeProofs.

(** ** max_concurrent_for_each *)

Module MaxConcurrentProofs.
Import MaxConcurrent.

Section Invariant.
Variable A : Type.
Variable func : A -> fut unit.
Variable maxc : nat.

(** Units held by the loop itself in each phase. *)
Definition held (p : phase) : nat :=
  match p with
  | Granted => 1
  | Reclaimed | Done _ => maxc
  | _ => 0
  end.

(** The requests the loop has queued on the semaphore in each phase. *)
Definition queued (p : phase) : list nat :=
  match p with
  | WaitingUnit => [1]
  | WaitAll => [maxc]
  | _ => []
  end.

Definition err_res (e : option error) : res unit :=
  match e with None => Val tt | Some e => Exn e end.

(** Every unit is either free, held by an in-flight invocation or held by
    the loop; the error kept is the first one completed; every launch is
    either completed or in flight. *)
Definition mc_inv (st : mc_state A) : Prop :=
  sem_count (sem A st) + length (inflight A st) + held (ph A st) = maxc /\
  sem_waiters (sem A st) = queued (ph A st) /\
  err A st = first_error A (trace A st) /\
  count_launched A (trace A st) =
    count_completed A (trace A st) + length (inflight A st) /\
  (forall r, ph A st = Done r -> r = err_res (err A st)).

Lemma first_error_app :
  forall tr ev,
    first_error A (tr ++ [ev]) =
      match first_error A tr with
      | Some e => Some e
      | None => first_error A [ev]
      end.
Proof.
  induction tr as [|[x|x [[]|e]] tr IH]; intros ev; simpl; auto.
Qed.

Lemma count_launched_app :
  forall tr1 tr2, count_launched A (tr1 ++ tr2) = count_launched A tr1 + count_launched A tr2.
Proof. intros. unfold count_launched. rewrite filter_app, length_app. reflexivity. Qed.

Lemma count_completed_app :
  forall tr1 tr2, count_completed A (tr1 ++ tr2) = count_completed A tr1 + count_completed A tr2.
Proof. intros. unfold count_completed. rewrite filter_app, length_app. reflexivity. Qed.

Lemma length_remove_nth :
  forall {B} (l : list B) i y,
    nth_error l i = Some y -> S (length (remove_nth i l)) = length l.
Proof.
  intros B l. induction l as [|z l IH]; intros [|i] y H; simpl in *; try discriminate.
  - reflexivity.
  - rewrite (IH i y H). reflexivity.
Qed.

Lemma mc_inv_init : forall l, mc_inv (mc_init A maxc l).
Proof.
  intros l. unfold mc_inv; simpl. repeat split; try lia.
  intros r H; discriminate.
Qed.

Lemma mc_inv_next :
  forall st c st', mc_inv st -> mc_next A func maxc st c = Some st' -> mc_inv st'.
Proof.
  intros [r [cnt ws] i e p t] c st' [H1 [H2 [H3 [H4 H5]]]] Hn;
    simpl in H1, H2, H3, H4, H5.
  destruct c as [| |n|]; simpl in Hn.
  - (* the do_until step *)
    destruct p; try discriminate; simpl in H2; subst ws.
    destruct r as [|x r]; unfold sem_wait in Hn; simpl in Hn.
    + destruct (Nat.leb_spec maxc cnt); simpl in Hn; injection Hn as <-;
        unfold mc_inv; simpl in *; repeat split; auto; try lia;
        intros r0 Hr; discriminate.
    + destruct cnt as [|cnt']; simpl in Hn; injection Hn as <-;
        unfold mc_inv; simpl in *; repeat split; auto; try lia;
        intros r0 Hr; discriminate.
  - (* the launch *)
    destruct p; try discriminate. destruct r as [|x r]; try discriminate.
    injection Hn as <-. unfold mc_inv; simpl in *.
    rewrite length_app, count_launched_app, count_completed_app, first_error_app.
    change (count_launched A [launched x]) with 1.
    change (count_completed A [launched x]) with 0.
    simpl. rewrite <- H3. destruct e; simpl.
    + repeat split; auto; try lia. intros r0 Hr; discriminate.
    + repeat split; auto; try lia. intros r0 Hr; discriminate.
  - (* a background invocation completes *)
    destruct (nth_error i n) as [[x rx]|] eqn:Hnth; try discriminate.
    pose proof (length_remove_nth i n _ Hnth) as Hlen.
    unfold sem_signal in Hn; simpl in Hn. rewrite H2 in Hn.
    assert (He : match e with
                 | Some e0 => Some e0
                 | None => match rx with Val _ => None | Exn e0 => Some e0 end
                 end = first_error A (t ++ [completed x rx])).
    { rewrite first_error_app, <- H3. destruct e, rx; reflexivity. }
    rewrite Nat.add_1_r in Hn.
    destruct p; simpl in Hn, H1;
      try (injection Hn as <-; unfold mc_inv; simpl;
           rewrite count_launched_app, count_completed_app;
           change (count_launched A [completed x rx]) with 0;
           change (count_completed A [completed x rx]) with 1;
           repeat split; auto; try lia; intros r0 Hr; discriminate).
    + (* WaitAll: woken when the units are back *)
      destruct (Nat.leb_spec maxc (S cnt)); simpl in Hn; injection Hn as <-;
        unfold mc_inv; simpl;
        rewrite count_launched_app, count_completed_app;
        change (count_launched A [completed x rx]) with 0;
        change (count_completed A [completed x rx]) with 1;
        repeat split; auto; try lia; try (destruct maxc; lia);
        intros r0 Hr; discriminate.
  - (* the last continuation *)
    destruct p; try discriminate. injection Hn as <-.
    unfold mc_inv; simpl in *. repeat split; auto; try lia.
    intros r0 Hr. injection Hr as <-. reflexivity.
Qed.

Lemma mc_inv_exec :
  forall cs st st', mc_inv st -> mc_exec A func maxc st cs = Some st' -> mc_inv st'.
Proof.
  induction cs as [|c cs IH]; intros st st' Hi He; simpl in He.
  - injection He as <-. exact Hi.
  - destruct (mc_next A func maxc st c) as [st1|] eqn:Hn; try discriminate.
    apply (IH st1); auto. eapply mc_inv_next; eauto.
Qed.

Lemma mc_inv_reachable :
  forall l st, reachable A func maxc l st -> mc_inv st.
Proof.
  intros l st [cs Hcs]. eapply mc_inv_exec; [apply mc_inv_init|exact Hcs].
Qed.

End Invariant.

(** C7: at every point of every schedule, at most [max_concurrent]
    launched invocations have not completed. *)
Theorem max_concurrent_bound :
  forall (A : Type) (func : A -> fut unit) (maxc : nat) (l : list A)
         (st : mc_state A),
    0 < maxc ->
    reachable A func maxc l st ->
    length (inflight A st) <= maxc.
Proof.
  intros A func maxc l st _ Hr.
  destruct (mc_inv_reachable A func maxc l st Hr) as [H1 _]. lia.
Qed.

(** C6: once the returned future is resolved, no invocation is in flight,
    every launched invocation has completed, and the result carries the
    first error among the completions (success if there was none). *)
Theorem max_concurrent_errors_after_quiesce :
  forall (A : Type) (func : A -> fut unit) (maxc : nat) (l : list A)
         (st : mc_state A) (r : res unit),
    0 < maxc ->
    reachable A func maxc l st ->
    ph A st = Done r ->
    inflight A st = [] /\
    count_launched A (trace A st) = count_completed A (trace A st) /\
    r = err_res (first_error A (trace A st)).
Proof.
  intros A func maxc l st r _ Hr Hd.
  destruct (mc_inv_reachable A func maxc l st Hr) as [H1 [_ [H3 [H4 H5]]]].
  rewrite Hd in H1. simpl in H1.
  assert (Hi : inflight A st = []).
  { destruct (inflight A st); [reflexivity | simpl in H1; lia]. }
  rewrite Hi in H4. simpl in H4.
  split; [exact Hi|]. split; [lia|].
  rewrite <- H3. apply H5. exact Hd.
Qed.

Lemma max_concurrent_bound_witness :
  0 < 2 /\
  reachable nat Demo.demo_func 2 Demo.demo_range
    (Demo.demo_state (firstn 4 Demo.demo_schedule)) /\
  length (inflight nat (Demo.demo_state (firstn 4 Demo.demo_schedule))) <= 2.
Proof.
  assert (Hr : reachable nat Demo.demo_func 2 Demo.demo_range
                 (Demo.demo_state (firstn 4 Demo.demo_schedule))).
  { exists (firstn 4 Demo.demo_schedule). vm_compute. reflexivity. }
  split; [lia|]. split; [exact Hr|].
  apply (max_concurrent_bound nat Demo.demo_func 2 Demo.demo_range _); [lia|exact Hr].
Defined.

Lemma max_concurrent_errors_after_quiesce_witness :
  0 < 2 /\
  reachable nat Demo.demo_func 2 Demo.demo_range
    (Demo.demo_state Demo.demo_schedule) /\
  ph nat (Demo.demo_state Demo.demo_schedule) = Done (Exn (user_error 2)) /\
  (inflight nat (Demo.demo_state Demo.demo_schedule) = [] /\
   count_launched nat (trace nat (Demo.demo_state Demo.demo_schedule)) =
     count_completed nat (trace nat (Demo.demo_state Demo.demo_schedule)) /\
   Exn (user_error 2) =
     err_res (first_error nat (trace nat (Demo.demo_state Demo.demo_schedule)))).
Proof.
  assert (Hr : reachable nat Demo.demo_func 2 Demo.demo_range
                 (Demo.demo_state Demo.demo_schedule)).
  { exists Demo.demo_schedule. vm_compute. reflexivity. }
  assert (Hd : ph nat (Demo.demo_state Demo.demo_schedule) = Done (Exn (user_error 2))).
  { vm_compute. reflexivity. }
  split; [lia|]. split; [exact Hr|]. split; [exact Hd|].
  apply (max_concurrent_errors_after_quiesce nat Demo.demo_func 2 Demo.demo_range
           _ _ ltac:(lia) Hr Hd).
Defined.

End MaxConcurrentProofs.

(** ** parallel_for_each: what is collected *)

Module ParallelForEachProofs.
Import ParallelForEach.

Section Collect.
Variable A : Type.
Variable func : A -> fut unit.

Definition waits_on (f : fut unit) : bool := negb (available f) || failed f.

Lemma pfe_loop_collects :
  forall l s,
    pfe_loop A func l s =
      (match s, filter waits_on (map func l) with
       | None, [] => None
       | None, fs => Some fs
       | Some fs0, fs => Some (fs0 ++ fs)
       end, l).
Proof.
  induction l as [|x l IH]; intros s; simpl.
  - destruct s as [fs0|]; [rewrite app_nil_r|]; reflexivity.
  - rewrite IH.
    change (negb (available (func x)) || failed (func x)) with (waits_on (func x)).
    destruct (waits_on (func x)); simpl.
    + destruct s as [fs0|]; [rewrite <- app_assoc|]; reflexivity.
    + reflexivity.
Qed.

End Collect.

(** X1: [parallel_for_each] invokes the function once on every element,
    in order, and returns a ready future exactly when none of the
    returned futures is unavailable or failed; otherwise its state waits
    on exactly those futures, in the order they were returned. *)
Theorem parallel_for_each_collects_pending :
  forall (A : Type) (func : A -> fut unit) (l : list A),
    parallel_for_each A func l =
      (match filter waits_on (map func l) with
       | [] => pfe_ready
       | fs => pfe_state fs
       end, l).
Proof.
  intros A func l. unfold parallel_for_each.
  rewrite pfe_loop_collects.
  destruct (filter waits_on (map func l)); reflexivity.
Qed.

End ParallelForEachProofs.

(** ** max_concurrent_for_each: order of the launches *)

Module MaxConcurrentOrderProofs.
Import MaxConcurrent MaxConcurrentTrace MaxConcurrentProofs.

Section Order.
Variable A : Type.
Variable func : A -> fut unit.
Variable maxc : nat.
Variable l : list A.

(** The range is consumed from the front, one launch at a time, and the
    loop only leaves it once it is empty. *)
Definition order_inv (st : mc_state A) : Prop :=
  launched_elems A (trace A st) ++ rest A st = l /\
  match ph A st with
  | Looping => True
  | WaitingUnit | Granted => rest A st <> []
  | WaitAll | Reclaimed | Done _ => rest A st = []
  end.

Lemma launched_elems_app :
  forall tr1 tr2,
    launched_elems A (tr1 ++ tr2) = launched_elems A tr1 ++ launched_elems A tr2.
Proof.
  induction tr1 as [|[x|x r] tr1 IH]; intros tr2; simpl; rewrite ?IH; reflexivity.
Qed.

Lemma count_launched_elems :
  forall tr, count_launched A tr = length (launched_elems A tr).
Proof.
  unfold count_launched.
  induction tr as [|[x|x r] tr IH]; simpl; auto.
Qed.

Lemma order_inv_next :
  forall st c st', order_inv st -> mc_next A func maxc st c = Some st' -> order_inv st'.
Proof.
  intros [r s i e p t] c st' [Hl Hp] Hn; simpl in Hl, Hp.
  destruct c as [| |n|]; simpl in Hn.
  - destruct p; try discriminate.
    destruct r as [|x r].
    + destruct (sem_wait maxc s) as [g s']. injection Hn as <-.
      split; [exact Hl|]. destruct g; reflexivity.
    + destruct (sem_wait 1 s) as [g s']. injection Hn as <-.
      split; [exact Hl|]. destruct g; simpl; discriminate.
  - destruct p; try discriminate. destruct r as [|x r]; try discriminate.
    injection Hn as <-. split; [|exact I]. simpl.
    rewrite launched_elems_app, <- app_assoc. exact Hl.
  - destruct (nth_error i n) as [[x rx]|]; try discriminate.
    destruct (sem_signal 1 s) as [woken s']. injection Hn as <-.
    split.
    + simpl. rewrite launched_elems_app, app_nil_r. exact Hl.
    + simpl. destruct woken; destruct p; exact Hp.
  - destruct p; try discriminate. injection Hn as <-. split; [exact Hl|exact Hp].
Qed.

Lemma order_inv_reachable :
  forall st, reachable A func maxc l st -> order_inv st.
Proof.
  intros st [cs Hcs].
  assert (H : forall cs st0 st1, order_inv st0 ->
                mc_exec A func maxc st0 cs = Some st1 -> order_inv st1).
  { induction cs0 as [|c cs0 IH]; intros st0 st1 H0 He; simpl in He.
    - injection He as <-. exact H0.
    - destruct (mc_next A func maxc st0 c) as [st2|] eqn:Hn; try discriminate.
      apply (IH st2); auto. eapply order_inv_next; eauto. }
  apply (H cs (mc_init A maxc l)); [|exact Hcs].
  split; reflexivity.
Qed.

End Order.

(** X2: at every point of every schedule, the elements launched so far,
    in launch order, followed by the part of the range not yet consumed,
    are exactly the range. *)
Theorem max_concurrent_launches_in_order :
  forall (A : Type) (func : A -> fut unit) (maxc : nat) (l : list A)
         (st : mc_state A),
    reachable A func maxc l st ->
    launched_elems A (trace A st) ++ rest A st = l.
Proof.
  intros A func maxc l st Hr.
  exact (proj1 (order_inv_reachable A func maxc l st Hr)).
Qed.

Lemma max_concurrent_launches_in_order_witness :
  reachable nat Demo.demo_func 2 Demo.demo_range
    (Demo.demo_state (firstn 2 Demo.demo_schedule)) /\
  launched_elems nat (trace nat (Demo.demo_state (firstn 2 Demo.demo_schedule)))
    ++ rest nat (Demo.demo_state (firstn 2 Demo.demo_schedule)) = Demo.demo_range.
Proof.
  assert (Hr : reachable nat Demo.demo_func 2 Demo.demo_range
                 (Demo.demo_state (firstn 2 Demo.demo_schedule))).
  { exists (firstn 2 Demo.demo_schedule). vm_compute. reflexivity. }
  split; [exact Hr|].
  apply (max_concurrent_launches_in_order nat Demo.demo_func 2 Demo.demo_range _ Hr).
Defined.

(** X3: once the returned future is resolved, the function has been
    invoked on every element of the range exactly once, in order, and
    every one of these invocations has completed. *)
Theorem max_concurrent_done_covers_range :
  forall (A : Type) (func : A -> fut unit) (maxc : nat) (l : list A)
         (st : mc_state A) (r : res unit),
    reachable A func maxc l st ->
    ph A st = Done r ->
    launched_elems A (trace A st) = l /\
    count_completed A (trace A st) = length l /\
    inflight A st = [].
Proof.
  intros A func maxc l st r Hr Hd.
  destruct (order_inv_reachable A func maxc l st Hr) as [Hl Hp].
  rewrite Hd in Hp. rewrite Hp, app_nil_r in Hl.
  destruct (mc_inv_reachable A func maxc l st Hr) as [H1 [_ [_ [H4 _]]]].
  rewrite Hd in H1. simpl in H1.
  assert (Hi : inflight A st = []).
  { destruct (inflight A st); [reflexivity | simpl in H1; lia]. }
  rewrite Hi in H4. simpl in H4. rewrite count_launched_elems, Hl in H4.
  split; [exact Hl|]. split; [lia|exact Hi].
Qed.

Lemma max_concurrent_done_covers_range_witness :
  reachable nat Demo.demo_func 2 Demo.demo_range
    (Demo.demo_state Demo.demo_schedule) /\
  ph nat (Demo.demo_state Demo.demo_schedule) = Done (Exn (user_error 2)) /\
  (launched_elems nat (trace nat (Demo.demo_state Demo.demo_schedule)) = Demo.demo_range /\
   count_completed nat (trace nat (Demo.demo_state Demo.demo_schedule))
     = length Demo.demo_range /\
   inflight nat (Demo.demo_state Demo.demo_schedule) = []).
Proof.
  assert (Hr : reachable nat Demo.demo_func 2 Demo.demo_range
                 (Demo.demo_state Demo.demo_schedule)).
  { exists Demo.demo_schedule. vm_compute. reflexivity. }
  assert (Hd : ph nat (Demo.demo_state Demo.demo_schedule) = Done (Exn (user_error 2))).
  { vm_compute. reflexivity. }
  split; [exact Hr|]. split; [exact Hd|].
  apply (max_concurrent_done_covers_range nat Demo.demo_func 2 Demo.demo_range _ _ Hr Hd).
Defined.

(** X4: with [max_concurrent = 1] the invocations are sequential: an
    element is launched only when no earlier invocation is in flight. *)
Theorem max_concurrent_one_sequential :
  forall (A : Type) (func : A -> fut unit) (l : list A) (st st' : mc_state A),
    reachable A func 1 l st ->
    mc_next A func 1 st ch_launch = Some st' ->
    inflight A st = [] /\ length (inflight A st') = 1.
Proof.
  intros A func l st st' Hr Hn.
  destruct (mc_inv_reachable A func 1 l st Hr) as [H1 _].
  destruct st as [r s i e p t]; simpl in *.
  destruct p; try discriminate. destruct r as [|x r]; try discriminate.
  injection Hn as <-. simpl in H1.
  assert (Hi : i = []) by (destruct i; [reflexivity | simpl in H1; lia]).
  subst i. split; reflexivity.
Qed.

Lemma max_concurrent_one_sequential_witness :
  reachable nat Demo.demo_func 1 Demo.demo_range (demo1_state [ch_loop]) /\
  mc_next nat Demo.demo_func 1 (demo1_state [ch_loop]) ch_launch
    = Some (demo1_state [ch_loop; ch_launch]) /\
  (inflight nat (demo1_state [ch_loop]) = [] /\
   length (inflight nat (demo1_state [ch_loop; ch_launch])) = 1).
Proof.
  assert (Hr : reachable nat Demo.demo_func 1 Demo.demo_range (demo1_state [ch_loop])).
  { exists [ch_loop]. vm_compute. reflexivity. }
  assert (Hn : mc_next nat Demo.demo_func 1 (demo1_state [ch_loop]) ch_launch
               = Some (demo1_state [ch_loop; ch_launch])).
  { vm_compute. reflexivity. }
  split; [exact Hr|]. split; [exact Hn|].
  apply (max_concurrent_one_sequential nat Demo.demo_func Demo.demo_range _ _ Hr Hn).
Defined.

End MaxConcurrentOrderProofs.

(** ** Abortable sleep: the promise is set once, the sleeper freed once *)

Module SleepLifetimeProofs.
Import Sleep SleepProofs.

(** Whenever the promise is unresolved the timer may be armed; once it is
    resolved the timer is no longer armed. *)
Definition armed_inv (w : world) : Prop := done w = None \/ tmr w <> Armed.

(** Once freed, the sleeper had its promise resolved and dropped its
    subscription. *)
Definition freed_inv (w : world) : Prop :=
  destroyed w = true -> done w <> None /\ sc w = false.

Lemma resolved_step :
  forall w ev r, done w = Some r -> tmr w <> Armed ->
    done (step w ev) = Some r /\ tmr (step w ev) <> Armed.
Proof.
  intros [a d t s x] [] r Hd Ht; simpl in *; subst d.
  - destruct a; [split; auto|].
    destruct s; simpl; [|split; auto].
    destruct t; simpl; try (split; auto); congruence.
  - destruct t; simpl; try (split; auto); congruence.
  - split; auto.
Qed.

Lemma armed_inv_step : forall w ev, armed_inv w -> armed_inv (step w ev).
Proof.
  intros w ev [Hd|Ht].
  - destruct w as [a d t s x]; simpl in *; subst d.
    destruct ev; simpl.
    + destruct a; [left; reflexivity|].
      destruct s; simpl; [|left; reflexivity].
      destruct t; simpl; try (left; reflexivity); right; discriminate.
    + destruct t; simpl; try (left; reflexivity); right; discriminate.
    + left; reflexivity.
  - destruct (done w) as [r|] eqn:Hd.
    + right. apply (resolved_step w ev r Hd Ht).
    + destruct w as [a d t s x]; simpl in *; subst d.
      destruct ev; simpl.
      * destruct a; [right; exact Ht|].
        destruct s; simpl; [|right; exact Ht].
        destruct t; simpl; try (right; assumption); right; discriminate.
      * destruct t; simpl; try (right; assumption); right; discriminate.
      * right; exact Ht.
Qed.

Lemma freed_inv_step : forall w ev, freed_inv w -> freed_inv (step w ev).
Proof.
  intros [a d t s x] ev H; unfold freed_inv in *; simpl in *.
  destruct ev; simpl.
  - destruct a; [exact H|].
    destruct s; simpl; [|exact H].
    destruct t; simpl; auto. intros Hx. destruct (H Hx) as [_ Hs]; discriminate.
  - destruct t; simpl; auto. intros Hx. destruct (H Hx) as [Hd Hs]. split; auto.
    discriminate.
  - destruct d as [r|]; simpl; auto. intros _. split; [discriminate|reflexivity].
Qed.

Lemma sleep_invs :
  forall a0 evs, armed_inv (sleep_abortable a0 evs) /\ freed_inv (sleep_abortable a0 evs).
Proof.
  intros a0 evs. unfold sleep_abortable.
  apply (run_preserves (fun w => armed_inv w /\ freed_inv w)).
  - intros w ev [H1 H2]. split; [apply armed_inv_step|apply freed_inv_step]; assumption.
  - destruct a0; simpl; split.
    + right; discriminate.
    + intros H; discriminate.
    + left; reflexivity.
    + intros H; discriminate.
Qed.

(** X5: once the returned future's promise is resolved, no later event
    (an abort, the timer, the [finally] continuation) changes it. *)
Theorem sleep_abortable_resolves_once :
  forall (a0 : bool) (evs1 evs2 : list event) (r : res unit),
    done (sleep_abortable a0 evs1) = Some r ->
    done (sleep_abortable a0 (evs1 ++ evs2)) = Some r.
Proof.
  intros a0 evs1 evs2 r Hd.
  destruct (sleep_invs a0 evs1) as [[Hn|Ht] _]; [congruence|].
  unfold sleep_abortable in *. rewrite run_app.
  assert (H : forall evs w, done w = Some r -> tmr w <> Armed ->
                done (run w evs) = Some r /\ tmr (run w evs) <> Armed).
  { induction evs as [|ev evs IH]; intros w H1 H2; simpl; [auto|].
    destruct (resolved_step w ev r H1 H2) as [H3 H4]. apply IH; auto. }
  apply (H evs2 _ Hd Ht).
Qed.

Lemma sleep_abortable_resolves_once_witness :
  done (sleep_abortable false [timer_fires]) = Some (Val tt) /\
  done (sleep_abortable false ([timer_fires] ++ [request_abort; finally_runs]))
    = Some (Val tt).
Proof.
  assert (H : done (sleep_abortable false [timer_fires]) = Some (Val tt))
    by reflexivity.
  split; [exact H|].
  apply (sleep_abortable_resolves_once false [timer_fires] [request_abort; finally_runs]
           (Val tt) H).
Defined.

(** X6: the [finally] continuation frees the sleeper only after its
    promise is resolved, and the subscription is gone by then: after it
    ran, no later event changes the promise, the timer, the subscription
    or the freed state (the abort callback never touches the freed
    sleeper). *)
Theorem sleep_abortable_freed_is_inert :
  forall (a0 : bool) (evs1 evs2 : list event),
    destroyed (sleep_abortable a0 evs1) = true ->
    let w := sleep_abortable a0 evs1 in
    let w' := sleep_abortable a0 (evs1 ++ evs2) in
    done w <> None /\ sc w = false /\
    done w' = done w /\ tmr w' = tmr w /\ sc w' = false /\ destroyed w' = true.
Proof.
  intros a0 evs1 evs2 Hx w w'.
  destruct (sleep_invs a0 evs1) as [Ha Hf].
  destruct (Hf Hx) as [Hd Hs].
  destruct Ha as [Ha|Ht]; [contradiction|].
  subst w w'. unfold sleep_abortable in *. rewrite run_app.
  assert (H : forall evs w0, done w0 <> None -> tmr w0 <> Armed -> sc w0 = false ->
                destroyed w0 = true ->
                done (run w0 evs) = done w0 /\ tmr (run w0 evs) = tmr w0 /\
                sc (run w0 evs) = false /\ destroyed (run w0 evs) = true).
  { induction evs as [|ev evs IH]; intros w0 H1 H2 H3 H4; simpl; [auto|].
    assert (Hst : done (step w0 ev) = done w0 /\ tmr (step w0 ev) = tmr w0 /\
                  sc (step w0 ev) = false /\ destroyed (step w0 ev) = true).
    { destruct w0 as [a d t s x]; simpl in *; subst s x.
      destruct ev; simpl.
      - destruct a; auto.
      - destruct t; auto; congruence.
      - destruct d; [auto|congruence]. }
    destruct Hst as [E1 [E2 [E3 E4]]].
    destruct (IH (step w0 ev)) as [F1 [F2 [F3 F4]]]; try congruence.
    repeat split; congruence. }
  destruct (H evs2 _ Hd Ht Hs Hx) as [E1 [E2 [E3 E4]]].
  repeat split; assumption.
Qed.

Lemma sleep_abortable_freed_is_inert_witness :
  destroyed (sleep_abortable false [request_abort; finally_runs]) = true /\
  (let w := sleep_abortable false [request_abort; finally_runs] in
   let w' := sleep_abortable false ([request_abort; finally_runs] ++ [timer_fires; request_abort]) in
   done w <> None /\ sc w = false /\
   done w' = done w /\ tmr w' = tmr w /\ sc w' = false /\ destroyed w' = true).
Proof.
  assert (H : destroyed (sleep_abortable false [request_abort; finally_runs]) = true)
    by reflexivity.
  split; [exact H|].
  apply (sleep_abortable_freed_is_inert false [request_abort; finally_runs]
           [timer_fires; request_abort] H).
Defined.

End SleepLifetimeProofs.

(** ** repeat: the result of a complete run *)

Module RepeatRunProofs.
Import Repeat RepeatRun.

Section Drive.
Variable action : nat -> fut stop_iteration.
Variable need_preempt : nat -> bool.
Variable inner : nat.
Hypothesis inner_pos : 1 <= inner.
Variable r : res unit.

(** What the reactor does after one run of the repeater. *)
Definition cont (fuel k np : nat) (s : repeater_step) : option (res unit) :=
  match s with
  | rep_done r0 => Some r0
  | rep_wait k' f => repeater_drive action need_preempt fuel inner (fut_res f) k' (np + (k' - S k))
  | rep_rescheduled k' np' => repeater_drive action need_preempt fuel inner (Val false) k' np'
  end.

Lemma drive_S :
  forall fuel st k np,
    repeater_drive action need_preempt (S fuel) inner st k np =
      cont fuel k np (repeater_run action need_preempt inner st k np).
Proof. intros. unfold cont. simpl. destruct (repeater_run _ _ _ _ _ _); reflexivity. Qed.

Lemma repeater_loop_wait_after :
  forall i k np k' f, repeater_loop action need_preempt i k np = rep_wait k' f -> S k <= k'.
Proof.
  induction i as [|i IH]; intros k np k' f H; simpl in H; [discriminate|].
  destruct (available (action k)); simpl in H.
  - destruct (fut_res (action k)) as [[]|e]; try discriminate.
    destruct (need_preempt np); [discriminate|].
    apply IH in H. lia.
  - injection H as <- _. lia.
Qed.

Lemma cont_shift :
  forall fuel i k np,
    cont fuel k np (repeater_loop action need_preempt i (S k) (S np)) =
    cont fuel (S k) (S np) (repeater_loop action need_preempt i (S k) (S np)).
Proof.
  intros fuel i k np.
  destruct (repeater_loop action need_preempt i (S k) (S np)) as [r0|k' f|k' np'] eqn:H;
    simpl; try reflexivity.
  apply repeater_loop_wait_after in H.
  replace (np + (k' - S k)) with (S np + (k' - S (S k))) by lia. reflexivity.
Qed.

Lemma drive_decisive :
  forall fuel x k np,
    match x with Exn _ => true | Val b => b end = true ->
    repeater_drive action need_preempt (S fuel) inner x k np =
      Some (match x with Exn e => Exn e | Val _ => Val tt end).
Proof.
  intros fuel [[]|e] k np H; try discriminate; reflexivity.
Qed.

Lemma drive_loop :
  forall fuel,
    (forall n k np, repeat_outcome action n k = Some r -> n < fuel ->
       repeater_drive action need_preempt fuel inner (Val false) k np = Some r) /\
    (forall i n k np, repeat_outcome action n k = Some r -> n <= fuel ->
       (i = 0 -> n < fuel) ->
       cont fuel k np (repeater_loop action need_preempt i k np) = Some r).
Proof.
  induction fuel as [|fuel [IHd IHl]].
  - assert (D0 : forall n k np, repeat_outcome action n k = Some r -> n < 0 ->
               repeater_drive action need_preempt 0 inner (Val false) k np = Some r)
      by (intros; lia).
    split; [exact D0|].
    intros i n k np Ho Hn Hi. destruct n as [|n]; [discriminate|lia].
  - assert (D : forall n k np, repeat_outcome action n k = Some r -> n < S fuel ->
              repeater_drive action need_preempt (S fuel) inner (Val false) k np = Some r).
    { intros n k np Ho Hn. rewrite drive_S. simpl.
      apply (IHl inner n k np Ho); lia. }
    split; [exact D|].
    induction i as [|i IHi]; intros n k np Ho Hn Hi.
    + simpl. apply (D n); auto.
    + destruct n as [|n]; [discriminate|]. simpl in Ho |- *.
      destruct (action k) as [[[]|e]|[[]|e]] eqn:Ha; simpl in Ho |- *.
      * injection Ho as <-. reflexivity.
      * destruct (need_preempt np); simpl.
        -- apply (D n); [exact Ho|lia].
        -- rewrite cont_shift. apply (IHi n); [exact Ho|lia|lia].
      * injection Ho as <-. reflexivity.
      * injection Ho as <-. reflexivity.
      * apply (D n); [exact Ho|lia].
      * injection Ho as <-. reflexivity.
Qed.

Lemma repeat_loop_run :
  forall fuel fuel1 n k np,
    repeat_outcome action n k = Some r -> n <= fuel1 -> n <= fuel ->
    match repeat_loop action need_preempt fuel1 k np with
    | None => False
    | Some returned_ready => r = Val tt
    | Some (repeater_allocated k' f np') =>
        repeater_drive action need_preempt fuel inner (fut_res f) k' np' = Some r
    end.
Proof.
  intros fuel fuel1. induction fuel1 as [|fuel1 IH]; intros n k np Ho H1 H2.
  - destruct n; [discriminate|lia].
  - destruct n as [|n]; [discriminate|]. simpl in Ho.
    destruct fuel as [|fuel]; [lia|].
    cbn [repeat_loop].
    destruct (action k) as [[[]|e]|[[]|e]] eqn:Ha; simpl in Ho;
      cbn [available failed negb orb fut_res].
    + destruct (need_preempt np); [|injection Ho as <-; reflexivity].
      injection Ho as <-. reflexivity.
    + destruct (need_preempt np).
      * rewrite drive_S. cbn [repeater_run].
        apply (proj2 (drive_loop fuel) inner n); auto; lia.
      * apply (IH n); auto; lia.
    + injection Ho as <-. reflexivity.
    + injection Ho as <-. reflexivity.
    + rewrite drive_S. cbn [repeater_run].
      apply (proj2 (drive_loop fuel) inner n); auto; lia.
    + injection Ho as <-. reflexivity.
Qed.

End Drive.

(** X7: run to completion, [repeat] resolves with the error of the first
    call that fails, or with success at the first call that resolves
    with [stop_iteration::yes], whatever the pattern of preemption
    requests, the availability of the futures and the bound on each run
    of the repeater. *)
Theorem repeat_run_outcome :
  forall (action : nat -> fut stop_iteration) (need_preempt : nat -> bool)
         (fuel inner n : nat) (r : res unit),
    1 <= inner ->
    n <= fuel ->
    repeat_outcome action n 0 = Some r ->
    repeat_run action need_preempt fuel inner = Some r.
Proof.
  intros action need_preempt fuel inner n r Hi Hn Ho.
  unfold repeat_run, repeat.
  pose proof (repeat_loop_run action need_preempt inner Hi r fuel fuel n 0 0 Ho Hn Hn) as H.
  destruct (repeat_loop action need_preempt fuel 0 0) as [[|k f np]|]; try contradiction.
  - subst r. reflexivity.
  - exact H.
Qed.

Lemma repeat_run_outcome_witness :
  let act := fun k => if k <? 2 then Pending (Val false)
                      else if k =? 2 then Ready (Val false) else Ready (Val true) in
  1 <= 1 /\ 4 <= 4 /\
  repeat_outcome act 4 0 = Some (Val tt) /\
  repeat_run act (fun np => Nat.even np) 4 1 = Some (Val tt).
Proof.
  intros act.
  assert (Ho : repeat_outcome act 4 0 = Some (Val tt)) by reflexivity.
  split; [lia|]. split; [lia|]. split; [exact Ho|].
  apply (repeat_run_outcome act (fun np => Nat.even np) 4 1 4 (Val tt)); [lia|lia|exact Ho].
Defined.

End RepeatRunProofs.

(** ** do_until: the result of a complete run *)

Module DoUntilProofs.
Import DoUntil.

Section Drive.
Variable stop_cond : nat -> bool.
Variable action : nat -> fut unit.
Variable need_preempt : nat -> bool.
Variable inner : nat.
Hypothesis inner_pos : 1 <= inner.
Variable r : res unit.

Definition du_cont (fuel k np : nat) (s : do_until_step) : option (res unit) :=
  match s with
  | du_done r0 => Some r0
  | du_wait k' f =>
      do_until_drive stop_cond action need_preempt fuel inner (Some (fut_res f)) k' (np + (k' - S k))
  | du_rescheduled k' np' =>
      do_until_drive stop_cond action need_preempt fuel inner None k' np'
  end.

Lemma du_drive_S :
  forall fuel st k np,
    do_until_drive stop_cond action need_preempt (S fuel) inner st k np =
      du_cont fuel k np (do_until_state_run stop_cond action need_preempt inner st k np).
Proof. intros. unfold du_cont. simpl. destruct (do_until_state_run _ _ _ _ _ _ _); reflexivity. Qed.

Lemma du_loop_wait_after :
  forall i k np k' f,
    do_until_state_loop stop_cond action need_preempt i k np = du_wait k' f -> S k <= k'.
Proof.
  induction i as [|i IH]; intros k np k' f H; simpl in H; [discriminate|].
  destruct (stop_cond k); [discriminate|].
  destruct (available (action k)); simpl in H.
  - destruct (failed (action k)); [discriminate|].
    destruct (need_preempt np); [discriminate|].
    apply IH in H. lia.
  - injection H as <- _. lia.
Qed.

Lemma du_cont_shift :
  forall fuel i k np,
    du_cont fuel k np (do_until_state_loop stop_cond action need_preempt i (S k) (S np)) =
    du_cont fuel (S k) (S np) (do_until_state_loop stop_cond action need_preempt i (S k) (S np)).
Proof.
  intros fuel i k np.
  destruct (do_until_state_loop stop_cond action need_preempt i (S k) (S np))
    as [r0|k' f|k' np'] eqn:H; simpl; try reflexivity.
  apply du_loop_wait_after in H.
  replace (np + (k' - S k)) with (S np + (k' - S (S k))) by lia. reflexivity.
Qed.

(** Resuming after a future that resolved with a value is resuming
    after [schedule(this)]. *)
Lemma du_run_value :
  forall st k np, (st = None \/ exists v, st = Some (Val v)) ->
    do_until_state_run stop_cond action need_preempt inner st k np =
    do_until_state_loop stop_cond action need_preempt inner k np.
Proof. intros st k np [->|[v ->]]; reflexivity. Qed.

Lemma du_drive_loop :
  forall fuel,
    (forall n k np st, do_until_outcome stop_cond action n k = Some r -> n < fuel ->
       (st = None \/ exists v, st = Some (Val v)) ->
       do_until_drive stop_cond action need_preempt fuel inner st k np = Some r) /\
    (forall i n k np, do_until_outcome stop_cond action n k = Some r -> n <= fuel ->
       (i = 0 -> n < fuel) ->
       du_cont fuel k np (do_until_state_loop stop_cond action need_preempt i k np) = Some r).
Proof.
  induction fuel as [|fuel [IHd IHl]].
  - split; [intros; lia|].
    intros i n k np Ho Hn Hi. destruct n as [|n]; [discriminate|lia].
  - assert (D : forall n k np st, do_until_outcome stop_cond action n k = Some r ->
              n < S fuel -> (st = None \/ exists v, st = Some (Val v)) ->
              do_until_drive stop_cond action need_preempt (S fuel) inner st k np = Some r).
    { intros n k np st Ho Hn Hst. rewrite du_drive_S, du_run_value by exact Hst.
      apply (IHl inner n k np Ho); lia. }
    split; [exact D|].
    induction i as [|i IHi]; intros n k np Ho Hn Hi.
    + cbn [do_until_state_loop du_cont]. apply (D n); auto.
    + destruct n as [|n]; [discriminate|]. simpl in Ho.
      cbn [do_until_state_loop].
      destruct (stop_cond k); [exact Ho|].
      destruct (action k) as [[[]|e]|[[]|e]] eqn:Ha; simpl in Ho;
        cbn [available failed negb fut_res du_cont].
      * destruct (need_preempt np); cbn [du_cont].
        -- apply (D n); [exact Ho|lia|left; reflexivity].
        -- rewrite du_cont_shift. apply (IHi n); [exact Ho|lia|lia].
      * injection Ho as <-. reflexivity.
      * apply (D n); [exact Ho|lia|right; exists tt; reflexivity].
      * injection Ho as <-. reflexivity.
Qed.

Lemma do_until_loop_run :
  forall fuel fuel1 n k np,
    do_until_outcome stop_cond action n k = Some r -> n <= fuel1 -> n <= fuel ->
    match do_until_loop stop_cond action need_preempt fuel1 k np with
    | None => False
    | Some (du_ready r0) => r0 = r
    | Some (du_task_allocated k' f np') =>
        do_until_drive stop_cond action need_preempt fuel inner (Some (fut_res f)) k' np'
          = Some r
    end.
Proof.
  intros fuel fuel1. induction fuel1 as [|fuel1 IH]; intros n k np Ho H1 H2.
  - destruct n; [discriminate|lia].
  - destruct n as [|n]; [discriminate|]. simpl in Ho.
    destruct fuel as [|fuel]; [lia|].
    cbn [do_until_loop].
    destruct (stop_cond k); [injection Ho as <-; reflexivity|].
    destruct (action k) as [[[]|e]|[[]|e]] eqn:Ha; simpl in Ho;
      cbn [available failed negb orb fut_res].
    + destruct (need_preempt np).
      * rewrite du_drive_S, du_run_value by (right; exists tt; reflexivity).
        apply (proj2 (du_drive_loop fuel) inner n); auto; lia.
      * apply (IH n); auto; lia.
    + injection Ho as <-. reflexivity.
    + rewrite du_drive_S, du_run_value by (right; exists tt; reflexivity).
      apply (proj2 (du_drive_loop fuel) inner n); auto; lia.
    + injection Ho as <-. reflexivity.
Qed.

End Drive.

(** X8: run to completion, [do_until] resolves with success at the first
    evaluation of [stop_cond()] that returns true, or with the error of
    the first call of the action that fails before that, whatever the
    preemption requests, the availability of the futures and the bound
    on each run of its task. *)
Theorem do_until_run_outcome :
  forall (stop_cond : nat -> bool) (action : nat -> fut unit)
         (need_preempt : nat -> bool) (fuel inner n : nat) (r : res unit),
    1 <= inner ->
    n <= fuel ->
    do_until_outcome stop_cond action n 0 = Some r ->
    do_until_run stop_cond action need_preempt fuel inner = Some r.
Proof.
  intros stop_cond action need_preempt fuel inner n r Hi Hn Ho.
  unfold do_until_run, do_until.
  pose proof (do_until_loop_run stop_cond action need_preempt inner Hi r
                fuel fuel n 0 0 Ho Hn Hn) as H.
  destruct (do_until_loop stop_cond action need_preempt fuel 0 0) as [[r0|k f np]|];
    try contradiction.
  - subst r0. reflexivity.
  - exact H.
Qed.

Lemma do_until_run_outcome_witness :
  let act := fun k => if k =? 1 then Ready (Val tt) else Pending (Val tt) in
  let stop := fun k => 3 <=? k in
  1 <= 2 /\ 4 <= 4 /\
  do_until_outcome stop act 4 0 = Some (Val tt) /\
  do_until_run stop act (fun _ => true) 4 2 = Some (Val tt).
Proof.
  intros act stop.
  assert (Ho : do_until_outcome stop act 4 0 = Some (Val tt)) by reflexivity.
  split; [lia|]. split; [lia|]. split; [exact Ho|].
  apply (do_until_run_outcome stop act (fun _ => true) 4 2 4 (Val tt)); [lia|lia|exact Ho].
Defined.

End DoUntilProofs.

(** ** repeat_until_value: the result of a complete run *)

Module RepeatUntilValueProofs.
Import RepeatUntilValue.

Section Drive.
Variable T : Type.
Variable action : nat -> fut (option T).
Variable need_preempt : nat -> bool.
Variable inner : nat.
Hypothesis inner_pos : 1 <= inner.
Variable r : res T.

Definition ruv_cont (fuel k np : nat) (s : ruv_step T) : option (res T) :=
  match s with
  | ruv_done _ r0 => Some r0
  | ruv_wait _ k' f => ruv_drive T action need_preempt fuel inner (fut_res f) k' (np + (k' - S k))
  | ruv_rescheduled _ k' np' => ruv_drive T action need_preempt fuel inner (Val None) k' np'
  end.

Lemma ruv_drive_S :
  forall fuel st k np,
    ruv_drive T action need_preempt (S fuel) inner st k np =
      ruv_cont fuel k np (ruv_state_run T action need_preempt inner st k np).
Proof. intros. unfold ruv_cont. simpl. destruct (ruv_state_run _ _ _ _ _ _ _); reflexivity. Qed.

Lemma ruv_loop_wait_after :
  forall i k np k' f,
    ruv_state_loop T action need_preempt i k np = ruv_wait T k' f -> S k <= k'.
Proof.
  induction i as [|i IH]; intros k np k' f H; simpl in H; [discriminate|].
  destruct (available (action k)); simpl in H.
  - destruct (fut_res (action k)) as [[v|]|e]; try discriminate.
    destruct (need_preempt np); [discriminate|].
    apply IH in H. lia.
  - injection H as <- _. lia.
Qed.

Lemma ruv_cont_shift :
  forall fuel i k np,
    ruv_cont fuel k np (ruv_state_loop T action need_preempt i (S k) (S np)) =
    ruv_cont fuel (S k) (S np) (ruv_state_loop T action need_preempt i (S k) (S np)).
Proof.
  intros fuel i k np.
  destruct (ruv_state_loop T action need_preempt i (S k) (S np)) as [r0|k' f|k' np'] eqn:H;
    simpl; try reflexivity.
  apply ruv_loop_wait_after in H.
  replace (np + (k' - S k)) with (S np + (k' - S (S k))) by lia. reflexivity.
Qed.

Lemma ruv_drive_loop :
  forall fuel,
    (forall n k np, ruv_outcome T action n k = Some r -> n < fuel ->
       ruv_drive T action need_preempt fuel inner (Val None) k np = Some r) /\
    (forall i n k np, ruv_outcome T action n k = Some r -> n <= fuel ->
       (i = 0 -> n < fuel) ->
       ruv_cont fuel k np (ruv_state_loop T action need_preempt i k np) = Some r).
Proof.
  induction fuel as [|fuel [IHd IHl]].
  - split; [intros; lia|].
    intros i n k np Ho Hn Hi. destruct n as [|n]; [discriminate|lia].
  - assert (D : forall n k np, ruv_outcome T action n k = Some r -> n < S fuel ->
              ruv_drive T action need_preempt (S fuel) inner (Val None) k np = Some r).
    { intros n k np Ho Hn. rewrite ruv_drive_S. cbn [ruv_state_run].
      apply (IHl inner n k np Ho); lia. }
    split; [exact D|].
    induction i as [|i IHi]; intros n k np Ho Hn Hi.
    + cbn [ruv_state_loop ruv_cont]. apply (D n); auto.
    + destruct n as [|n]; [discriminate|]. simpl in Ho.
      cbn [ruv_state_loop].
      destruct (action k) as [[[v|]|e]|[[v|]|e]] eqn:Ha; simpl in Ho;
        cbn [available negb fut_res ruv_cont].
      * injection Ho as <-. reflexivity.
      * destruct (need_preempt np); cbn [ruv_cont].
        -- apply (D n); [exact Ho|lia].
        -- rewrite ruv_cont_shift. apply (IHi n); [exact Ho|lia|lia].
      * injection Ho as <-. reflexivity.
      * injection Ho as <-. reflexivity.
      * apply (D n); [exact Ho|lia].
      * injection Ho as <-. reflexivity.
Qed.

Lemma ruv_loop_run :
  forall fuel fuel1 n k np,
    ruv_outcome T action n k = Some r -> n <= fuel1 -> n <= fuel ->
    match repeat_until_value_loop T action need_preempt fuel1 k np with
    | None => False
    | Some (ruv_ready _ r0) => r0 = r
    | Some (ruv_state_waiting _ k' f np') =>
        ruv_drive T action need_preempt fuel inner (fut_res f) k' np' = Some r
    | Some (ruv_state_scheduled _ k' np') =>
        ruv_drive T action need_preempt fuel inner (Val None) k' np' = Some r
    end.
Proof.
  intros fuel fuel1. induction fuel1 as [|fuel1 IH]; intros n k np Ho H1 H2.
  - destruct n; [discriminate|lia].
  - destruct n as [|n]; [discriminate|]. simpl in Ho.
    destruct fuel as [|fuel]; [lia|].
    cbn [repeat_until_value_loop].
    destruct (action k) as [[[v|]|e]|[[v|]|e]] eqn:Ha; simpl in Ho;
      cbn [available negb fut_res].
    + injection Ho as <-. reflexivity.
    + destruct (need_preempt np).
      * apply (proj1 (ruv_drive_loop (S fuel)) n); [exact Ho|lia].
      * apply (IH n); auto; lia.
    + injection Ho as <-. reflexivity.
    + injection Ho as <-. reflexivity.
    + apply (proj1 (ruv_drive_loop (S fuel)) n); [exact Ho|lia].
    + injection Ho as <-. reflexivity.
Qed.

End Drive.

(** X9: run to completion, [repeat_until_value] resolves with the value
    of the first call that returns an engaged [optional], or with the
    error of the first call that fails before it, whatever the
    preemption requests, the availability of the futures and the bound
    on each run of its state. *)
Theorem repeat_until_value_run_outcome :
  forall (T : Type) (action : nat -> fut (option T)) (need_preempt : nat -> bool)
         (fuel inner n : nat) (r : res T),
    1 <= inner ->
    n <= fuel ->
    ruv_outcome T action n 0 = Some r ->
    repeat_until_value_run T action need_preempt fuel inner = Some r.
Proof.
  intros T action need_preempt fuel inner n r Hi Hn Ho.
  unfold repeat_until_value_run, repeat_until_value.
  pose proof (ruv_loop_run T action need_preempt inner Hi r fuel fuel n 0 0 Ho Hn Hn) as H.
  destruct (repeat_until_value_loop T action need_preempt fuel 0 0)
    as [[r0|k f np|k np]|]; try contradiction.
  - subst r0. reflexivity.
  - exact H.
  - exact H.
Qed.

Lemma repeat_until_value_run_outcome_witness :
  let act := fun k => if k <? 2 then Ready (Val None)
                      else if k =? 2 then Pending (Val None)
                      else Pending (Val (Some k)) in
  1 <= 1 /\ 4 <= 4 /\
  ruv_outcome nat act 4 0 = Some (Val 3) /\
  repeat_until_value_run nat act (fun np => np =? 0) 4 1 = Some (Val 3).
Proof.
  intros act.
  assert (Ho : ruv_outcome nat act 4 0 = Some (Val 3)) by reflexivity.
  split; [lia|]. split; [lia|]. split; [exact Ho|].
  apply (repeat_until_value_run_outcome nat act (fun np => np =? 0) 4 1 4 (Val 3));
    [lia|lia|exact Ho].
Defined.

End RepeatUntilValueProofs.

(** ** rename_file_ext and link_file_ext *)

Module FileUtilProofs.
Import FileUtil.

Ltac case_stats :=
  repeat match goal with
         | |- context [type ?sd] => destruct (type sd)
         | |- context [is_same_file ?a ?b] => destruct (is_same_file a b)
         end.

(** X10: when exactly one of the two paths is a directory, both copies
    of [rename_file_ext] fail whatever the flag: with [ENOTDIR] when
    [oldpath] is the directory, with [EISDIR] when [newpath] is. *)
Theorem rename_file_ext_type_mismatch :
  forall (sd1 sd2 : stat_data) (flag : allow_overwrite),
    is_directory (type sd1) <> is_directory (type sd2) ->
    let e := if is_directory (type sd1) then ENOTDIR else EISDIR in
    rename_file_ext sd1 sd2 flag = rename_failed e /\
    LogFileUtil.rename_file_ext sd1 sd2 flag = rename_failed e.
Proof.
  intros sd1 sd2 flag H e. subst e.
  unfold rename_file_ext, LogFileUtil.rename_file_ext.
  destruct (type sd1), (type sd2); simpl in *; try congruence; split; reflexivity.
Qed.

Lemma rename_file_ext_type_mismatch_witness :
  let sd1 := {| device_id := 1; inode_number := 7; type := directory |} in
  let sd2 := {| device_id := 1; inode_number := 8; type := regular |} in
  is_directory (type sd1) <> is_directory (type sd2) /\
  (rename_file_ext sd1 sd2 always = rename_failed ENOTDIR /\
   LogFileUtil.rename_file_ext sd1 sd2 always = rename_failed ENOTDIR).
Proof.
  intros sd1 sd2.
  assert (H : is_directory (type sd1) <> is_directory (type sd2)) by discriminate.
  split; [exact H|].
  exact (rename_file_ext_type_mismatch sd1 sd2 always H).
Defined.

(** X11: [rename_file_ext] removes [oldpath] only when both paths name
    the same file and renames over [newpath] only when they do not;
    with [if_same] a file that is not a directory is never renamed over
    another file. *)
Theorem rename_file_ext_same_file_handling :
  forall (sd1 sd2 : stat_data) (flag : allow_overwrite),
    (rename_file_ext sd1 sd2 flag = remove_oldpath -> is_same_file sd1 sd2 = true) /\
    (rename_file_ext sd1 sd2 flag = rename_over_newpath -> is_same_file sd1 sd2 = false) /\
    (is_directory (type sd1) = false ->
     rename_file_ext sd1 sd2 if_same <> rename_over_newpath).
Proof.
  intros sd1 sd2 flag. unfold rename_file_ext.
  split; [|split]; destruct (is_same_file sd1 sd2);
    destruct (type sd1), (type sd2), flag; simpl; intros; try discriminate; auto.
Qed.

(** X12: the copy in log.cc and the one in file.cc agree except on
    [if_not_same] with two paths naming the same file that is not a
    directory: file.cc then removes [oldpath], log.cc fails with
    [EEXIST] (as file.hh documents). *)
Theorem rename_file_ext_copies_differ :
  forall (sd1 sd2 : stat_data) (flag : allow_overwrite),
    (rename_file_ext sd1 sd2 flag <> LogFileUtil.rename_file_ext sd1 sd2 flag <->
     flag = if_not_same /\ is_same_file sd1 sd2 = true /\
     is_directory (type sd1) = false /\ is_directory (type sd2) = false) /\
    (flag = if_not_same -> is_same_file sd1 sd2 = true ->
     is_directory (type sd1) = false -> is_directory (type sd2) = false ->
     rename_file_ext sd1 sd2 flag = remove_oldpath /\
     LogFileUtil.rename_file_ext sd1 sd2 flag = rename_failed EEXIST).
Proof.
  intros sd1 sd2 flag. unfold rename_file_ext, LogFileUtil.rename_file_ext.
  destruct (is_same_file sd1 sd2); destruct (type sd1), (type sd2), flag; simpl;
    (split; [split; [intros H; try (exfalso; apply H; reflexivity)
                    | intros [H1 [H2 [H3 H4]]]; try discriminate]|]);
    intros; try discriminate; auto.
Qed.

(** X13: with [allow_overwrite::never] the rename fails unless both
    paths are directories: the flag protects every target that is not
    a directory, and none that is. *)
Theorem rename_file_ext_never :
  forall sd1 sd2 : stat_data,
    (exists e, rename_file_ext sd1 sd2 never = rename_failed e) <->
    is_directory (type sd1) && is_directory (type sd2) = false.
Proof.
  intros sd1 sd2. unfold rename_file_ext.
  destruct (is_same_file sd1 sd2); destruct (type sd1), (type sd2); simpl;
    split; intros H; try reflexivity; try discriminate;
    try (destruct H as [e He]; discriminate); eexists; reflexivity.
Qed.

(** X14: [link_file_ext] with [never] behaves as [link(2)]; it removes
    [newpath] and retries only when the link failed with [EEXIST], the
    two paths name different files and the flag is [always] or
    [if_not_same]. *)
Theorem link_file_ext_overwrite :
  forall (link_error : option errno) (same : bool) (flag : allow_overwrite),
    LogFileUtil.link_file_ext link_error same never =
      match link_error with
      | None => LogFileUtil.linked
      | Some e => LogFileUtil.link_failed e
      end /\
    (LogFileUtil.link_file_ext link_error same flag = LogFileUtil.remove_newpath_and_relink <->
     link_error = Some EEXIST /\ same = false /\ (flag = always \/ flag = if_not_same)).
Proof.
  intros link_error same flag.
  split.
  - destruct link_error as [e|]; [|reflexivity]. simpl.
    rewrite orb_true_r. reflexivity.
  - destruct link_error as [[| | |n]|]; destruct same, flag; simpl;
      split; intros H; try discriminate;
      try (destruct H as [H1 [H2 [H3|H3]]]; discriminate);
      try (destruct H as [H1 [H2 H3]]; discriminate);
      auto.
Qed.

(** X15: [link_file] with [allow_same] succeeds exactly when [link]
    succeeded or failed with [EEXIST] on a [newpath] that already names
    the same file; any other failure is passed on unchanged, and without
    [allow_same] the result is [link]'s. *)
Theorem link_file_allow_same :
  forall (link_error : option errno) (same : bool),
    link_file false link_error same = link_error /\
    (link_file true link_error same = None <->
     link_error = None \/ (link_error = Some EEXIST /\ same = true)) /\
    (forall e, link_file true link_error same = Some e -> link_error = Some e).
Proof.
  intros link_error same. split; [reflexivity|].
  destruct link_error as [[| | |n]|]; destruct same; simpl;
    split; try split; intros; try discriminate; auto;
    try (destruct H as [H|[H1 H2]]; discriminate);
    try (injection H as <-; reflexivity).
Qed.

End FileUtilProofs.

(** ** sstring *)

Module SStringProofs.
Import Ascii BinNat SString.

Lemma length_set_nth : forall l i c, length (set_nth l i c) = length l.
Proof.
  induction l as [|a l IH]; intros [|i] c; simpl; auto.
Qed.

Lemma length_copy_into : forall src dst p, length (copy_into src dst p) = length dst.
Proof.
  induction src as [|c src IH]; intros dst p; simpl; auto.
  rewrite IH. apply length_set_nth.
Qed.

Lemma set_nth_split : forall l i c,
  i < length l -> set_nth l i c = firstn i l ++ c :: skipn (S i) l.
Proof.
  induction l as [|a l IH]; intros [|i] c H; simpl in *; try lia; auto.
  rewrite IH by lia. reflexivity.
Qed.

(** The in-place branch of [replace] writes the same characters as the
    branch that builds a new string. *)
Lemma copy_into_splice : forall src dst p,
  p + length src <= length dst ->
  copy_into src dst p = firstn p dst ++ src ++ skipn (p + length src) dst.
Proof.
  induction src as [|c src IH]; intros dst p H; simpl in *.
  - rewrite Nat.add_0_r, firstn_skipn. reflexivity.
  - rewrite IH by (rewrite length_set_nth; lia).
    rewrite set_nth_split by lia.
    assert (Hf : firstn (S p) (firstn p dst ++ c :: skipn (S p) dst) = firstn p dst ++ [c]).
    { rewrite firstn_app, length_firstn, Nat.min_l by lia.
      replace (S p - p) with 1 by lia.
      rewrite firstn_all2 by (rewrite length_firstn; lia). reflexivity. }
    assert (Hs : skipn (S p + length src) (firstn p dst ++ c :: skipn (S p) dst) =
                 skipn (p + S (length src)) dst).
    { rewrite skipn_app, length_firstn, Nat.min_l by lia.
      rewrite skipn_all2 by (rewrite length_firstn; lia). cbn [app].
      replace (S p + length src - p) with (S (length src)) by lia.
      change (skipn (S (length src)) (c :: skipn (S p) dst)) with (skipn (length src) (skipn (S p) dst)).
      rewrite skipn_skipn. f_equal. lia. }
    rewrite Hf, Hs, <- app_assoc. reflexivity.
Qed.

Lemma make_str : forall l s, make l = Some s -> str s = l.
Proof.
  unfold make. intros l s H.
  destruct (size_overflows (length l)); [discriminate|].
  destruct (length l + padding <=? max_size); injection H as <-; reflexivity.
Qed.

Lemma make_some : forall l, size_overflows (length l) = false -> exists s, make l = Some s.
Proof.
  unfold make. intros l H. rewrite H.
  destruct (length l + padding <=? max_size); eexists; reflexivity.
Qed.

Lemma make_none : forall l, make l = None -> size_overflows (length l) = true.
Proof.
  unfold make. intros l H.
  destruct (size_overflows (length l)); [reflexivity|].
  destruct (length l + padding <=? max_size); discriminate.
Qed.

Lemma size_overflows_mono : forall n m, n <= m ->
  size_overflows m = false -> size_overflows n = false.
Proof.
  unfold size_overflows. intros n m Hle H.
  apply negb_false_iff in H. apply negb_false_iff.
  apply N.ltb_lt in H. apply N.ltb_lt. lia.
Qed.

Lemma replace_str : forall x pos n1 s y,
  replace x pos n1 s = Some y ->
  str y = firstn pos (str x) ++ s ++ skipn (pos + n1) (str x).
Proof.
  unfold replace, size. intros x pos n1 s y H.
  destruct (length (str x) <? pos) eqn:Hp; [discriminate|].
  apply Nat.ltb_ge in Hp.
  assert (Hsk : skipn (pos + (if length (str x) - pos <? n1 then length (str x) - pos else n1))
                      (str x) = skipn (pos + n1) (str x)).
  { destruct (length (str x) - pos <? n1) eqn:Hn; [|reflexivity].
    apply Nat.ltb_lt in Hn.
    rewrite !skipn_all2 by lia. reflexivity. }
  destruct (_ =? length s) eqn:He.
  - injection H as <-. apply Nat.eqb_eq in He.
    destruct x as [l|l]; simpl in *;
      (rewrite copy_into_splice by
         (destruct (length l - pos <? n1) eqn:Hn;
          [apply Nat.ltb_lt in Hn | apply Nat.ltb_ge in Hn]; lia));
      rewrite <- He, Hsk; reflexivity.
  - apply make_str in H. rewrite H, Hsk. reflexivity.
Qed.

(** ** Lexicographic order of byte strings *)

Fixpoint lexc (p q : list ascii) : comparison :=
  match p, q with
  | [], [] => Eq
  | [], _ :: _ => Lt
  | _ :: _, [] => Gt
  | a :: p', b :: q' =>
      match N.compare (N_of_ascii a) (N_of_ascii b) with
      | Eq => lexc p' q'
      | c => c
      end
  end.

Lemma compare_lexc : forall x y, compare x y = lexc (str x) (str y).
Proof.
  intros x y. unfold compare, size.
  generalize (str x) (str y). clear x y.
  induction l as [|a p IH]; intros [|b q]; simpl; auto.
  destruct (N.compare (N_of_ascii a) (N_of_ascii b)) eqn:Hc; auto.
Qed.

Lemma N_of_ascii_inj : forall a b, N_of_ascii a = N_of_ascii b -> a = b.
Proof.
  intros a b H. rewrite <- (ascii_N_embedding a), <- (ascii_N_embedding b), H.
  reflexivity.
Qed.

Lemma lexc_antisym : forall p q, lexc q p = CompOpp (lexc p q).
Proof.
  induction p as [|a p IH]; intros [|b q]; simpl; auto.
  rewrite (N.compare_antisym (N_of_ascii a) (N_of_ascii b)).
  destruct (N.compare (N_of_ascii a) (N_of_ascii b)); simpl; auto.
Qed.

Lemma lexc_eq : forall p q, lexc p q = Eq <-> p = q.
Proof.
  induction p as [|a p IH]; intros [|b q]; simpl; split; intros H;
    try discriminate; auto.
  - destruct (N.compare (N_of_ascii a) (N_of_ascii b)) eqn:Hc; try discriminate.
    apply N.compare_eq_iff, N_of_ascii_inj in Hc. apply IH in H. subst. reflexivity.
  - injection H as <- <-. rewrite N.compare_refl. apply IH. reflexivity.
Qed.

Lemma lexc_trans : forall p q r, lexc p q = Lt -> lexc q r = Lt -> lexc p r = Lt.
Proof.
  induction p as [|a p IH]; intros [|b q] [|c r]; simpl; intros H1 H2;
    try discriminate; auto.
  destruct (N.compare (N_of_ascii a) (N_of_ascii b)) eqn:Hab; try discriminate;
  destruct (N.compare (N_of_ascii b) (N_of_ascii c)) eqn:Hbc; try discriminate.
  - apply N.compare_eq_iff in Hab, Hbc. rewrite Hab, Hbc, N.compare_refl. eauto.
  - apply N.compare_eq_iff in Hab. rewrite Hab, Hbc. reflexivity.
  - apply N.compare_eq_iff in Hbc. rewrite <- Hbc, Hab. reflexivity.
  - apply N.compare_lt_iff in Hab, Hbc.
    assert (Hac : (N_of_ascii a < N_of_ascii c)%N) by (eapply N.lt_trans; eauto).
    apply N.compare_lt_iff in Hac. rewrite Hac. reflexivity.
Qed.

Lemma equal_iff : forall p q, length p = length q -> (equal p q = true <-> p = q).
Proof.
  induction p as [|a p IH]; intros [|b q] H; simpl in *; split; intros E;
    try discriminate; auto.
  - apply andb_true_iff in E as [E1 E2]. apply Ascii.eqb_eq in E1.
    apply IH in E2; [|lia]. subst. reflexivity.
  - injection E as <- <-. rewrite Ascii.eqb_refl. apply IH; auto.
Qed.

Lemma traits_compare_firstn : forall p q n k, n <= k ->
  traits_compare (firstn k p) q n = traits_compare p q n.
Proof.
  induction p as [|a p IH]; intros q n k Hk.
  - rewrite firstn_nil. reflexivity.
  - destruct n as [|n]; [destruct k; reflexivity|].
    destruct k as [|k]; [lia|]. destruct q as [|b q]; [reflexivity|].
    simpl. rewrite IH by lia. reflexivity.
Qed.

Lemma traits_compare_0 : forall p q, traits_compare p q 0 = Eq.
Proof.
  intros [|a p] [|b q]; reflexivity.
Qed.

(** ** find *)

Lemma find_from_spec : forall l t i,
  match find_from l t i with
  | Some r => i <= r < i + length l /\ nth (r - i) l zero = t /\
              forall j, j < r - i -> nth j l zero <> t
  | None => forall j, j < length l -> nth j l zero <> t
  end.
Proof.
  induction l as [|c l IH]; intros t i; simpl.
  - intros j Hj. lia.
  - destruct (Ascii.eqb c t) eqn:Hc.
    + apply Ascii.eqb_eq in Hc. rewrite Nat.sub_diag.
      split; [lia|]. split; [exact Hc|]. intros j Hj. lia.
    + apply Ascii.eqb_neq in Hc. specialize (IH t (S i)).
      destruct (find_from l t (S i)) as [r|].
      * destruct IH as [Hr [Hn Hb]].
        replace (r - i) with (S (r - S i)) by lia.
        split; [lia|]. split; [exact Hn|].
        intros [|j] Hj; [exact Hc|]. apply Hb. lia.
      * intros [|j] Hj; [exact Hc|]. apply IH. lia.
Qed.

Lemma nth_skipn_ascii : forall (l : list ascii) n j,
  nth j (skipn n l) zero = nth (n + j) l zero.
Proof.
  induction l as [|a l IH]; intros [|n] j; simpl; auto.
  - destruct j; reflexivity.
Qed.

Lemma matches_at_spec : forall l needle,
  matches_at l needle = true <-> firstn (length needle) l = needle.
Proof.
  intros l needle. revert l.
  induction needle as [|b needle IH]; intros [|a l]; simpl; split; intros H;
    try discriminate; auto.
  - apply andb_true_iff in H as [H1 H2]. apply Ascii.eqb_eq in H1.
    apply IH in H2. rewrite H1, H2. reflexivity.
  - injection H as <- H. rewrite Ascii.eqb_refl. apply IH. exact H.
Qed.

Lemma find_str_from_spec : forall l needle i,
  match find_str_from l needle i with
  | Some r => i <= r < i + length l /\
              firstn (length needle) (skipn (r - i) l) = needle /\
              forall j, j < r - i -> firstn (length needle) (skipn j l) <> needle
  | None => forall j, j < length l -> firstn (length needle) (skipn j l) <> needle
  end.
Proof.
  induction l as [|c l IH]; intros needle i; cbn [find_str_from length].
  - intros j Hj. lia.
  - destruct (matches_at (c :: l) needle) eqn:Hm.
    + apply matches_at_spec in Hm. rewrite Nat.sub_diag.
      split; [lia|]. split; [exact Hm|]. intros j Hj. lia.
    + assert (Hn : firstn (length needle) (c :: l) <> needle).
      { intros E. apply matches_at_spec in E. congruence. }
      specialize (IH needle (S i)).
      destruct (find_str_from l needle (S i)) as [r|].
      * destruct IH as [Hr [He Hb]].
        replace (r - i) with (S (r - S i)) by lia.
        split; [lia|]. split; [exact He|].
        intros [|j] Hj; [exact Hn|]. apply Hb. lia.
      * intros [|j] Hj; [exact Hn|]. apply IH. lia.
Qed.

Lemma scan_down_spec : forall l c p,
  match scan_down l c p with
  | Some r => r <= p /\ nth r l zero = c /\ forall j, r < j <= p -> nth j l zero <> c
  | None => forall j, j <= p -> nth j l zero <> c
  end.
Proof.
  intros l c. induction p as [|p IH]; simpl.
  - destruct (Ascii.eqb (nth 0 l zero) c) eqn:Hc.
    + apply Ascii.eqb_eq in Hc. split; [lia|]. split; [exact Hc|]. intros j Hj. lia.
    + apply Ascii.eqb_neq in Hc. intros j Hj. replace j with 0 by lia. exact Hc.
  - destruct (Ascii.eqb (nth (S p) l zero) c) eqn:Hc.
    + apply Ascii.eqb_eq in Hc. split; [lia|]. split; [exact Hc|]. intros j Hj. lia.
    + apply Ascii.eqb_neq in Hc.
      destruct (scan_down l c p) as [r|].
      * destruct IH as [Hr [Hn Hb]]. split; [lia|]. split; [exact Hn|].
        intros j Hj. destruct (Nat.eq_dec j (S p)) as [->|Hne]; [exact Hc|].
        apply Hb. lia.
      * intros j Hj. destruct (Nat.eq_dec j (S p)) as [->|Hne]; [exact Hc|].
        apply IH. lia.
Qed.

(** ** The representation *)

(** Internal exactly when the characters and the terminating NUL fit
    in [u.internal.str]; an external size fits in [size_type]. *)
Definition wf (s : sstring) : bool :=
  match s with
  | internal l => length l + padding <=? max_size
  | external l => (max_size <? length l + padding) && negb (size_overflows (length l))
  end.

Lemma make_wf : forall l s, make l = Some s -> wf s = true.
Proof.
  unfold make. intros l s H.
  destruct (size_overflows (length l)) eqn:Ho; [discriminate|].
  destruct (length l + padding <=? max_size) eqn:Hl; injection H as <-; simpl.
  - exact Hl.
  - rewrite Ho. apply Nat.leb_gt in Hl. apply andb_true_iff. split; auto.
    apply Nat.ltb_lt. exact Hl.
Qed.

Lemma wf_no_overflow : forall s, wf s = true -> size_overflows (size s) = false.
Proof.
  unfold size. intros [l|l] H; simpl in *.
  - apply Nat.leb_le in H. unfold padding, max_size in H.
    unfold size_overflows. apply negb_false_iff, N.ltb_lt. lia.
  - apply andb_true_iff in H as [_ H]. apply negb_true_iff in H. exact H.
Qed.

Lemma replace_wf : forall x pos n1 s y, wf x = true -> replace x pos n1 s = Some y -> wf y = true.
Proof.
  unfold replace. intros x pos n1 s y Hx H.
  destruct (size x <? pos); [discriminate|].
  destruct (_ =? length s).
  - injection H as <-. destruct x as [l|l]; simpl in *; rewrite length_copy_into; exact Hx.
  - eapply make_wf. exact H.
Qed.

Lemma substr_wf : forall s from len t, substr s from len = Some t -> wf t = true.
Proof.
  unfold substr. intros s from len t H.
  destruct (size s <? from); [discriminate|].
  destruct (_ =? 0); eapply make_wf; exact H.
Qed.

Lemma resize_wf : forall s n c t, wf s = true -> resize s n c = Some t -> wf t = true.
Proof.
  unfold resize. intros s n c t Hs H.
  destruct (size s <? n).
  - destruct (make (repeat c (n - size s))); [|discriminate].
    eapply make_wf. exact H.
  - destruct (n <? size s) eqn:Hn.
    + apply Nat.ltb_lt in Hn. unfold shrink in H.
      destruct s as [l|l]; simpl in *.
      * injection H as <-. simpl. apply Nat.leb_le in Hs. apply Nat.leb_le.
        rewrite length_firstn. lia.
      * destruct (n + padding <=? max_size) eqn:Hp.
        -- eapply make_wf. exact H.
        -- injection H as <-. simpl. apply andb_true_iff in Hs as [_ Ho].
           apply negb_true_iff in Ho. rewrite length_firstn, Nat.min_l by (unfold size in Hn; simpl in Hn; lia).
           apply Nat.leb_gt in Hp. apply andb_true_iff. split.
           ++ apply Nat.ltb_lt. exact Hp.
           ++ apply negb_true_iff. eapply size_overflows_mono; [|exact Ho].
              unfold size in Hn; simpl in Hn; lia.
    + injection H as <-. exact Hs.
Qed.

Lemma apply_op_wf : forall s o t, wf s = true -> apply_op s o = Some t -> wf t = true.
Proof.
  intros s [y|from len|pos n1 y|pos len|n c] t Hs H; simpl in H.
  - destruct (make y); [|discriminate]. eapply make_wf. exact H.
  - eapply substr_wf. exact H.
  - eapply replace_wf; eauto.
  - eapply replace_wf; eauto.
  - eapply resize_wf; eauto.
Qed.

Lemma run_ops_wf : forall os s t, wf s = true -> run_ops s os = Some t -> wf t = true.
Proof.
  induction os as [|o os IH]; intros s t Hs H; simpl in H.
  - injection H as <-. exact Hs.
  - destruct (apply_op s o) as [s'|] eqn:Ho; [|discriminate].
    apply (IH s'); [eapply apply_op_wf; eauto | exact H].
Qed.

(** X16: [find(t, pos)] returns the first index at or after [pos] holding
    [t], and [npos] when there is none. *)
Theorem sstring_find_char :
  forall (s : sstring) (t : ascii) (pos : nat),
    match find s t pos with
    | Some i => pos <= i < size s /\ nth i (str s) zero = t /\
                forall j, pos <= j < i -> nth j (str s) zero <> t
    | None => forall j, pos <= j < size s -> nth j (str s) zero <> t
    end.
Proof.
  intros s t pos. unfold find, size.
  pose proof (find_from_spec (skipn pos (str s)) t pos) as H.
  rewrite length_skipn in H.
  destruct (find_from (skipn pos (str s)) t pos) as [i|].
  - destruct H as [Hr [Hn Hb]]. rewrite nth_skipn_ascii in Hn.
    replace (pos + (i - pos)) with i in Hn by lia.
    split; [lia|]. split; [exact Hn|].
    intros j Hj. specialize (Hb (j - pos) ltac:(lia)).
    rewrite nth_skipn_ascii in Hb. replace (pos + (j - pos)) with j in Hb by lia. exact Hb.
  - intros j Hj. specialize (H (j - pos) ltac:(lia)).
    rewrite nth_skipn_ascii in H. replace (pos + (j - pos)) with j in H by lia. exact H.
Qed.

(** X17: [find(x, pos)] returns the first index at or after [pos], and
    before the end, at which the whole of [x] occurs, and [npos] when
    there is none. In particular the empty string is found at every
    [pos] before the end, but not at [pos == size()]. *)
Theorem sstring_find_str :
  forall (s x : sstring) (pos : nat),
    (match find_str s x pos with
     | Some i => pos <= i < size s /\ i + size x <= size s /\
                 firstn (size x) (skipn i (str s)) = str x /\
                 forall j, pos <= j < i -> firstn (size x) (skipn j (str s)) <> str x
     | None => forall j, pos <= j < size s -> firstn (size x) (skipn j (str s)) <> str x
     end) /\
    (str x = [] -> find_str s x pos = if pos <? size s then Some pos else None).
Proof.
  intros s x pos. unfold find_str, size. split.
  - pose proof (find_str_from_spec (skipn pos (str s)) (str x) pos) as H.
    rewrite length_skipn in H.
    destruct (find_str_from (skipn pos (str s)) (str x) pos) as [i|].
    + destruct H as [Hr [He Hb]]. rewrite skipn_skipn in He.
      replace (i - pos + pos) with i in He by lia.
      split; [lia|]. split.
      * assert (Hl : length (firstn (length (str x)) (skipn i (str s))) = length (str x))
          by (rewrite He; reflexivity).
        rewrite length_firstn, length_skipn in Hl. lia.
      * split; [exact He|]. intros j Hj. specialize (Hb (j - pos) ltac:(lia)).
        rewrite skipn_skipn in Hb. replace (j - pos + pos) with j in Hb by lia. exact Hb.
    + intros j Hj. specialize (H (j - pos) ltac:(lia)).
      rewrite skipn_skipn in H. replace (j - pos + pos) with j in H by lia. exact H.
  - intros Hx. rewrite Hx.
    destruct (pos <? length (str s)) eqn:Hp.
    + apply Nat.ltb_lt in Hp.
      destruct (skipn pos (str s)) as [|c l] eqn:Hs.
      * apply (f_equal (@length ascii)) in Hs. rewrite length_skipn in Hs. simpl in Hs. lia.
      * reflexivity.
    + apply Nat.ltb_ge in Hp. rewrite skipn_all2 by lia. reflexivity.
Qed.

(** X18: [find_last_of(c, pos)] returns the last index at or before [pos]
    (and before the end) holding [c], and [npos] when there is none or
    the string is empty. *)
Theorem sstring_find_last_of :
  forall (s : sstring) (c : ascii) (pos : nat),
    match find_last_of s c pos with
    | Some i => i <= pos /\ i < size s /\ nth i (str s) zero = c /\
                forall j, i < j <= pos -> j < size s -> nth j (str s) zero <> c
    | None => forall j, j <= pos -> j < size s -> nth j (str s) zero <> c
    end.
Proof.
  intros s c pos. unfold find_last_of.
  destruct (size s =? 0) eqn:Hz.
  - apply Nat.eqb_eq in Hz. intros j _ Hj. lia.
  - apply Nat.eqb_neq in Hz.
    set (p := if size s <=? pos then size s - 1 else pos).
    assert (Hp : p <= pos /\ p < size s /\ forall j, j <= pos -> j < size s -> j <= p).
    { unfold p. destruct (size s <=? pos) eqn:H.
      - apply Nat.leb_le in H. split; [lia|]. split; [lia|]. intros; lia.
      - apply Nat.leb_gt in H. split; [lia|]. split; [lia|]. intros; lia. }
    destruct Hp as [Hp1 [Hp2 Hp3]].
    pose proof (scan_down_spec (str s) c p) as H.
    destruct (scan_down (str s) c p) as [i|].
    + destruct H as [Hr [Hn Hb]].
      split; [lia|]. split; [lia|]. split; [exact Hn|].
      intros j Hj Hs. apply Hb. specialize (Hp3 j ltac:(lia) Hs). lia.
    + intros j Hj Hs. apply H. apply Hp3; assumption.
Qed.

(** X19: [replace(pos, n1, s, n2)] leaves the first [pos] characters, then
    the [n2] new ones, then what follows the [n1] replaced ones (fewer
    when the string ends before); both of its branches, in place and
    into a new string, agree on this. It throws exactly when [pos] is
    past the end or the new size overflows, and [erase] removes the
    characters of the range. *)
Theorem sstring_replace_splices :
  forall (x : sstring) (pos n1 : nat) (s : list ascii),
    (forall y, replace x pos n1 s = Some y ->
               str y = firstn pos (str x) ++ s ++ skipn (pos + n1) (str x)) /\
    (replace x pos n1 s = None <->
     size x < pos \/
     (pos <= size x /\ size_overflows (length (firstn pos (str x) ++ s ++ skipn (pos + n1) (str x))) = true /\
      (if size x - pos <? n1 then size x - pos else n1) <> length s)) /\
    (forall y, erase x pos n1 = Some y -> str y = firstn pos (str x) ++ skipn (pos + n1) (str x)).
Proof.
  intros x pos n1 s. split; [|split].
  - apply replace_str.
  - unfold replace.
    assert (Hsk : skipn (pos + (if size x - pos <? n1 then size x - pos else n1))
                        (str x) = skipn (pos + n1) (str x)).
    { destruct (size x - pos <? n1) eqn:Hn; [|reflexivity].
      apply Nat.ltb_lt in Hn. unfold size in *.
      rewrite !skipn_all2 by lia. reflexivity. }
    destruct (size x <? pos) eqn:Hp.
    + apply Nat.ltb_lt in Hp. split; auto.
    + apply Nat.ltb_ge in Hp.
      destruct (_ =? length s) eqn:He.
      * apply Nat.eqb_eq in He. split; [discriminate|].
        intros [H|[_ [_ H]]]; [lia|]. contradiction.
      * apply Nat.eqb_neq in He. rewrite Hsk. split.
        -- intros H. right. split; [lia|]. split; [apply make_none; exact H|exact He].
        -- intros [H|[_ [H _]]]; [lia|]. unfold make. rewrite H. reflexivity.
  - intros y H. unfold erase in H. apply replace_str in H. exact H.
Qed.

(** X20: [compare(pos, sz, x)] compares [x] with [substr(pos, sz)]: both
    throw when [pos] is past the end, and otherwise agree. *)
Theorem sstring_compare_at_substr :
  forall (s x : sstring) (pos sz : nat),
    size_overflows (size s) = false ->
    compare_at s pos sz x =
      match substr s pos sz with
      | Some t => Some (compare t x)
      | None => None
      end.
Proof.
  intros s x pos sz Ho. unfold compare_at, substr.
  destruct (size s <? pos) eqn:Hp; [reflexivity|].
  apply Nat.ltb_ge in Hp.
  set (k := if size s - pos <? sz then size s - pos else sz).
  assert (Hk : Nat.min (size s - pos) sz = k).
  { unfold k. destruct (size s - pos <? sz) eqn:H;
      [apply Nat.ltb_lt in H | apply Nat.ltb_ge in H]; lia. }
  rewrite Hk.
  assert (Hlen : length (firstn k (skipn pos (str s))) = k).
  { rewrite length_firstn, length_skipn. unfold size in Hk. lia. }
  destruct (k =? 0) eqn:Hk0.
  - apply Nat.eqb_eq in Hk0. rewrite Hk0, Nat.min_0_l, traits_compare_0.
    unfold compare, size. simpl. rewrite ?traits_compare_0.
    destruct (length (str x)); reflexivity.
  - assert (Hm : exists t, make (firstn k (skipn pos (str s))) = Some t).
    { apply make_some. eapply size_overflows_mono; [|exact Ho].
      rewrite Hlen. unfold size in *. lia. }
    destruct Hm as [t Ht]. rewrite Ht.
    apply make_str in Ht.
    assert (Hst : size t = k) by (unfold size; rewrite Ht; exact Hlen).
    unfold compare. rewrite Hst, Ht, traits_compare_firstn by lia.
    destruct (traits_compare (skipn pos (str s)) (str x) (Nat.min k (size x))); reflexivity.
Qed.

Lemma sstring_compare_at_substr_witness :
  let s := internal ["a"%char; "b"%char; "c"%char] in
  let x := internal ["b"%char] in
  size_overflows (size s) = false /\
  compare_at s 1 1 x = match substr s 1 1 with Some t => Some (compare t x) | None => None end.
Proof.
  intros s x.
  assert (H : size_overflows (size s) = false) by reflexivity.
  split; [exact H|].
  exact (sstring_compare_at_substr s x 1 1 H).
Defined.

(** [operator==] compares the characters. *)
Lemma eqb_str : forall x y, eqb x y = true <-> str x = str y.
Proof.
  intros x y. unfold eqb, size. split.
  - intros H. apply andb_true_iff in H as [H1 H2]. apply Nat.eqb_eq in H1.
    apply equal_iff in H2; auto.
  - intros H. rewrite H, Nat.eqb_refl. simpl. apply equal_iff; auto.
Qed.

Lemma eqb_congr_r : forall k x y, str x = str y -> eqb k x = eqb k y.
Proof.
  intros k x y H. destruct (eqb k x) eqn:E1, (eqb k y) eqn:E2; try reflexivity.
  - apply eqb_str in E1. rewrite H, <- eqb_str in E1. congruence.
  - apply eqb_str in E2. rewrite <- H, <- eqb_str in E2. congruence.
Qed.

(** X21: [compare] orders strings lexicographically by their bytes read as
    [unsigned char], a shorter string before the longer one it begins:
    it is antisymmetric, returns 0 exactly on the strings [operator==]
    finds equal, and [operator<] is transitive. *)
Theorem sstring_compare_total_order :
  forall x y z : sstring,
    compare y x = CompOpp (compare x y) /\
    (compare x y = Eq <-> eqb x y = true) /\
    (eqb x y = true <-> str x = str y) /\
    (ltb x y = true -> ltb y z = true -> ltb x z = true).
Proof.
  intros x y z.
  pose proof (eqb_str x y) as Heq.
  split; [|split; [|split]].
  - rewrite !compare_lexc. apply lexc_antisym.
  - rewrite compare_lexc, lexc_eq. symmetry. exact Heq.
  - exact Heq.
  - unfold ltb. rewrite !compare_lexc.
    destruct (lexc (str x) (str y)) eqn:H1; try discriminate.
    destruct (lexc (str y) (str z)) eqn:H2; try discriminate.
    rewrite (lexc_trans _ _ _ H1 H2). reflexivity.
Qed.

(** X22: [resize(n, c)] keeps the first [n] characters and pads with [c]
    up to [n]; it throws only when [n] does not fit in [size_type]. *)
Theorem sstring_resize :
  forall (s : sstring) (n : nat) (c : ascii),
    (forall t, resize s n c = Some t -> str t = firstn n (str s) ++ repeat c (n - size s)) /\
    (resize s n c = None -> size_overflows n = true).
Proof.
  intros s n c. unfold resize. split.
  - intros t H. destruct (size s <? n) eqn:Hn.
    + apply Nat.ltb_lt in Hn.
      destruct (make (repeat c (n - size s))) as [u|] eqn:Hu; [|discriminate].
      apply make_str in Hu. apply make_str in H. rewrite H, Hu.
      rewrite firstn_all2 by (unfold size in Hn; lia). reflexivity.
    + apply Nat.ltb_ge in Hn. replace (n - size s) with 0 by lia.
      simpl. rewrite app_nil_r. destruct (n <? size s) eqn:Hl.
      * unfold shrink in H. destruct s as [l|l]; simpl in *.
        -- injection H as <-. reflexivity.
        -- destruct (n + padding <=? max_size).
           ++ apply make_str in H. exact H.
           ++ injection H as <-. reflexivity.
      * apply Nat.ltb_ge in Hl. injection H as <-.
        rewrite firstn_all2 by (unfold size in *; lia). reflexivity.
  - intros H. destruct (size s <? n) eqn:Hn.
    + apply Nat.ltb_lt in Hn.
      destruct (make (repeat c (n - size s))) as [u|] eqn:Hu.
      * apply make_none in H. unfold plus in *. apply make_str in Hu.
        rewrite length_app, Hu, repeat_length in H.
        unfold size in *. replace (length (str s) + (n - length (str s))) with n in H by lia.
        exact H.
      * apply make_none in Hu. rewrite repeat_length in Hu.
        destruct (size_overflows n) eqn:Ho; [reflexivity|].
        rewrite (size_overflows_mono (n - size s) n) in Hu by (lia || exact Ho). discriminate.
    + destruct (n <? size s) eqn:Hl; [|discriminate].
      unfold shrink in H. destruct s as [l|l]; [discriminate|].
      destruct (n + padding <=? max_size) eqn:Hp; [|discriminate].
      apply make_none in H. rewrite length_firstn in H.
      apply Nat.leb_le in Hp. unfold padding, max_size, size_overflows in *.
      apply negb_true_iff, N.ltb_ge in H. lia.
Qed.

(** X23: every string built by a constructor and then changed by
    [operator+=], [substr], [replace], [erase] and [resize] is internal
    exactly when its characters and the NUL fit in the 15 bytes of
    [u.internal.str], so [empty()], which only reads
    [u.internal.size], returns whether [size()] is 0. *)
Theorem sstring_representation :
  forall (l : list ascii) (os : list op) (s t : sstring),
    make l = Some s -> run_ops s os = Some t ->
    is_internal t = (size t + padding <=? max_size) /\
    empty t = (size t =? 0).
Proof.
  intros l os s t Hm Hr.
  pose proof (run_ops_wf os s t (make_wf l s Hm) Hr) as H.
  destruct t as [u|u]; simpl in *; unfold size; simpl.
  - split; [symmetry; exact H|reflexivity].
  - apply andb_true_iff in H as [H _]. apply Nat.ltb_lt in H.
    unfold padding, max_size in *.
    split; symmetry; [apply Nat.leb_gt | apply Nat.eqb_neq]; lia.
Qed.

Lemma sstring_representation_witness :
  let l := ["a"%char] in
  let os := [op_plus (repeat "x"%char 15); op_substr 0 3] in
  let s := internal l in
  let t := internal ["a"%char; "x"%char; "x"%char] in
  make l = Some s /\ run_ops s os = Some t /\
  is_internal t = (size t + padding <=? max_size) /\ empty t = (size t =? 0).
Proof.
  intros l os s t.
  assert (Hm : make l = Some s) by reflexivity.
  assert (Hr : run_ops s os = Some t) by reflexivity.
  split; [exact Hm|]. split; [exact Hr|].
  exact (sstring_representation l os s t Hm Hr).
Defined.

End SStringProofs.

(** ** Temporary file names *)

Module TmpFileProofs.
Import Ascii FileUtil TmpFile SStringProofs.
Local Open Scope char_scope.

(** The length of the run of ['X'] a list starts with. *)
Fixpoint x_run (l : list ascii) : nat :=
  match l with
  | c :: l' => if Ascii.eqb c "X" then S (x_run l') else 0
  | [] => 0
  end.

Lemma x_run_firstn : forall l, firstn (x_run l) l = repeat "X" (x_run l).
Proof.
  induction l as [|c l IH]; simpl; [reflexivity|].
  destruct (Ascii.eqb c "X") eqn:Hc; [|reflexivity].
  apply Ascii.eqb_eq in Hc. subst. simpl. rewrite IH. reflexivity.
Qed.

Lemma x_run_stops : forall l, hd_error (skipn (x_run l) l) <> Some "X".
Proof.
  induction l as [|c l IH]; simpl; [discriminate|].
  destruct (Ascii.eqb c "X") eqn:Hc; [exact IH|].
  simpl. intros E. injection E as E. subst. rewrite Ascii.eqb_refl in Hc. discriminate.
Qed.

Lemma x_run_XX : forall l, SString.matches_at l XX = true -> 2 <= x_run l.
Proof.
  intros [|a [|b l]] H; unfold XX in H; cbn [SString.matches_at] in H; try discriminate.
  - rewrite andb_false_r in H. discriminate.
  - apply andb_true_iff in H as [Ha H]. apply andb_true_iff in H as [Hb _].
    cbn [x_run]. rewrite Ha, Hb. lia.
Qed.

Lemma skipn_cons_nth : forall (l : list ascii) p d,
  p < length l -> skipn p l = nth p l d :: skipn (S p) l.
Proof.
  induction l as [|a l IH]; intros [|p] d H; simpl in *; try lia; auto.
  apply IH. lia.
Qed.

Lemma firstn_set_nth : forall l i c,
  i < length l -> firstn (S i) (SString.set_nth l i c) = firstn i l ++ [c].
Proof.
  induction l as [|a l IH]; intros [|i] c H; simpl in *; try lia; auto.
  rewrite IH by lia. reflexivity.
Qed.

Lemma skipn_set_nth : forall l i c j,
  i < j -> skipn j (SString.set_nth l i c) = skipn j l.
Proof.
  induction l as [|a l IH]; intros [|i] c [|j] H; simpl; try lia; auto.
  apply IH. lia.
Qed.

(** The loop rewrites exactly the run of ['X'] starting at [pos]. *)
Lemma fill_X_spec : forall draw n f pos k,
  length f = pos + n ->
  fill_X n f pos k draw =
    firstn pos f ++ map (fun i => charset_at (draw i)) (seq k (x_run (skipn pos f))) ++
    skipn (pos + x_run (skipn pos f)) f.
Proof.
  intros draw. induction n as [|n IH]; intros f pos k Hl; cbn [fill_X].
  - rewrite skipn_all2 by lia. simpl. rewrite Nat.add_0_r, firstn_skipn. reflexivity.
  - rewrite (skipn_cons_nth f pos "0") by lia. cbn [x_run].
    destruct (Ascii.eqb (nth pos f "0") "X") eqn:Hc.
    + rewrite IH by (rewrite length_set_nth; lia).
      rewrite firstn_set_nth by lia.
      rewrite !skipn_set_nth by lia.
      cbn [seq map]. rewrite <- app_assoc. cbn [app].
      replace (S pos + x_run (skipn (S pos) f)) with (pos + S (x_run (skipn (S pos) f))) by lia.
      reflexivity.
    + cbn [seq map app]. rewrite Nat.add_0_r, firstn_skipn. reflexivity.
Qed.

Lemma string_find_from_spec : forall l needle i r,
  string_find_from l needle i = Some r ->
  i <= r /\ SString.matches_at (skipn (r - i) l) needle = true.
Proof.
  induction l as [|c l IH]; intros needle i r H; cbn [string_find_from] in H.
  - destruct (SString.matches_at [] needle) eqn:Hm; [|discriminate].
    injection H as <-. rewrite Nat.sub_diag. auto.
  - destruct (SString.matches_at (c :: l) needle) eqn:Hm.
    + injection H as <-. rewrite Nat.sub_diag. auto.
    + apply IH in H as [Hr Hs]. split; [lia|].
      replace (r - i) with (S (r - S i)) by lia. exact Hs.
Qed.

Lemma matches_at_XX_length : forall l, SString.matches_at l XX = true -> 2 <= length l.
Proof.
  intros [|a [|b l]] H; unfold XX in H; cbn [SString.matches_at] in H; try discriminate.
  - rewrite andb_false_r in H. discriminate.
  - simpl. lia.
Qed.

(** X24: when the file name of the template contains ["XX"] at [pos]
    (its first occurrence), [generate_tmp_name] keeps the parent
    directory (["."] when there is none) and rewrites only the run of
    ['X'] starting at [pos], at least two long, one [charset] digit per
    ['X']; it fails with [ENOTDIR] when the directory is not one. *)
Theorem generate_tmp_name_fills_run :
  forall (parent : list (list ascii)) (filename : list ascii) (draw : nat -> nat)
         (stat : list (list ascii) -> errno + directory_entry_type) (pos : nat),
    string_find filename XX = Some pos ->
    let path := match parent with [] => [["."]] | _ => parent end in
    exists r, 2 <= r /\
      firstn r (skipn pos filename) = repeat "X" r /\
      hd_error (skipn (pos + r) filename) <> Some "X" /\
      generate_tmp_name parent filename draw stat =
        match stat path with
        | inl e => inl e
        | inr t =>
            if is_directory t then
              inr (path ++ [firstn pos filename ++
                            map (fun i => charset_at (draw i)) (seq 0 r) ++
                            skipn (pos + r) filename])
            else inl ENOTDIR
        end.
Proof.
  intros parent filename draw stat pos H path.
  pose proof (string_find_from_spec filename XX 0 pos H) as [_ Hm].
  rewrite Nat.sub_0_r in Hm.
  pose proof (matches_at_XX_length _ Hm) as Hlen. rewrite length_skipn in Hlen.
  exists (x_run (skipn pos filename)). split; [apply x_run_XX; exact Hm|].
  split; [apply x_run_firstn|]. split.
  - rewrite Nat.add_comm, <- skipn_skipn. apply x_run_stops.
  - unfold generate_tmp_name. rewrite H. fold path.
    rewrite fill_X_spec by lia. reflexivity.
Qed.

Lemma generate_tmp_name_fills_run_witness :
  let filename := ["a"; "X"; "X"; "X"; "b"] in
  let draw := fun i : nat => i in
  let stat := fun _ : list (list ascii) => @inr errno directory_entry_type directory in
  string_find filename XX = Some 1 /\
  exists r, 2 <= r /\
    firstn r (skipn 1 filename) = repeat "X" r /\
    hd_error (skipn (1 + r) filename) <> Some "X" /\
    generate_tmp_name [] filename draw stat =
      inr ([["."]] ++ [firstn 1 filename ++ map (fun i => charset_at (draw i)) (seq 0 r) ++
                       skipn (1 + r) filename]).
Proof.
  intros filename draw stat.
  assert (H : string_find filename XX = Some 1) by reflexivity.
  split; [exact H|].
  exact (generate_tmp_name_fills_run [] filename draw stat 1 H).
Defined.

(** X25: when the file name of the template has no ["XX"], it names the
    directory: [generate_tmp_name] stats [parent/filename] and names the
    file [parent/filename/dddddd.tmp], six [charset] digits and the
    suffix of [default_tmp_name_template]. *)
Theorem generate_tmp_name_default_template :
  forall (parent : list (list ascii)) (filename : list ascii) (draw : nat -> nat)
         (stat : list (list ascii) -> errno + directory_entry_type),
    string_find filename XX = None ->
    let path := match parent with [] => [["."]] | _ => parent end ++ [filename] in
    generate_tmp_name parent filename draw stat =
      match stat path with
      | inl e => inl e
      | inr t =>
          if is_directory t then
            inr (path ++ [map (fun i => charset_at (draw i)) (seq 0 6) ++ ["."; "t"; "m"; "p"]])
          else inl ENOTDIR
      end.
Proof.
  intros parent filename draw stat H path.
  unfold generate_tmp_name. rewrite H. fold path. reflexivity.
Qed.

Lemma generate_tmp_name_default_template_witness :
  let filename := ["t"; "m"; "p"] in
  let draw := fun i : nat => i in
  let stat := fun _ : list (list ascii) => @inr errno directory_entry_type directory in
  string_find filename XX = None /\
  generate_tmp_name [["v"; "a"; "r"]] filename draw stat =
    inr ([["v"; "a"; "r"]; filename] ++
         [map (fun i => charset_at (draw i)) (seq 0 6) ++ ["."; "t"; "m"; "p"]]).
Proof.
  intros filename draw stat.
  assert (H : string_find filename XX = None) by reflexivity.
  split; [exact H|].
  exact (generate_tmp_name_default_template [["v"; "a"; "r"]] filename draw stat H).
Defined.

End TmpFileProofs.

(** ** deferred_action *)

Module DeferProofs.
Import Defer.

(** Whether an object is alive, not cancelled, and holds the action of
    the [f]-th [defer]. *)
Definition pending (f : nat) (o : option deferred_action) : nat :=
  match o with
  | Some d => if (func d =? f) && negb (cancelled d) then 1 else 0
  | None => 0
  end.

Fixpoint holders (f : nat) (objs : list (option deferred_action)) : nat :=
  match objs with
  | [] => 0
  | o :: objs' => pending f o + holders f objs'
  end.

Definition calls_of (st : state) (f : nat) : nat := count_occ Nat.eq_dec (calls st) f.

(** The calls of [f]'s action made, plus the live objects that will make
    one. *)
Definition owed (st : state) (f : nat) : nat := calls_of st f + holders f (objects st).

Lemma holders_app : forall f l1 l2, holders f (l1 ++ l2) = holders f l1 + holders f l2.
Proof.
  induction l1 as [|o l1 IH]; intros l2; simpl; [reflexivity|]. rewrite IH. lia.
Qed.

Lemma holders_set : forall f l i x y,
  nth_error l i = Some y -> holders f (list_set l i x) + pending f y = holders f l + pending f x.
Proof.
  induction l as [|o l IH]; intros [|i] x y H; simpl in *; try discriminate.
  - injection H as <-. lia.
  - specialize (IH i x y H). lia.
Qed.

Lemma nth_error_list_set_other : forall {A} (l : list A) i j x,
  i <> j -> nth_error (list_set l i x) j = nth_error l j.
Proof.
  induction l as [|a l IH]; intros [|i] [|j] x H; simpl; try reflexivity; try lia.
  apply IH. lia.
Qed.

Lemma count_run_destructor : forall d cs f,
  count_occ Nat.eq_dec (run_destructor d cs) f = count_occ Nat.eq_dec cs f + pending f (Some d).
Proof.
  intros [g c] cs f. unfold run_destructor, pending. simpl.
  destruct c; simpl; rewrite ?andb_false_r, ?andb_true_r; [lia|].
  destruct (Nat.eq_dec g f) as [->|Hne].
  - rewrite Nat.eqb_refl. lia.
  - apply Nat.eqb_neq in Hne. rewrite Hne. lia.
Qed.

Lemma live_nth : forall st a d, live st a = Some d -> nth_error (objects st) a = Some (Some d).
Proof.
  unfold live. intros st a d H.
  destruct (nth_error (objects st) a) as [[d'|]|]; try discriminate.
  injection H as <-. reflexivity.
Qed.

Definition is_cancel (ev : event) : bool :=
  match ev with ev_cancel _ => true | _ => false end.

Definition gain (st : state) (ev : event) (f : nat) : nat :=
  match ev with ev_defer => if f =? next_func st then 1 else 0 | _ => 0 end.

Lemma step_owed : forall st ev st',
  step st ev = Some st' ->
  next_func st' = next_func st + gain st ev (next_func st) /\
  (forall f, owed st' f <= owed st f + gain st ev f) /\
  (is_cancel ev = false -> forall f, owed st' f = owed st f + gain st ev f).
Proof.
  intros st ev st' H. unfold owed, calls_of.
  destruct ev as [|src|dst src|a|a]; simpl in H; unfold gain.
  - injection H as <-. simpl. rewrite Nat.eqb_refl.
    split; [lia|].
    assert (E : forall f, count_occ Nat.eq_dec (calls st) f +
                          holders f (objects st ++ [Some {| func := next_func st; cancelled := false |}]) =
                          count_occ Nat.eq_dec (calls st) f + holders f (objects st) +
                          (if f =? next_func st then 1 else 0)).
    { intros f. rewrite holders_app. simpl. unfold pending. simpl.
      rewrite andb_true_r, (Nat.eqb_sym (next_func st) f).
      destruct (f =? next_func st); lia. }
    split; intros; rewrite E; lia.
  - destruct (live st src) as [o|] eqn:Ho; [|discriminate].
    injection H as <-. simpl. apply live_nth in Ho.
    assert (E : forall f, holders f (list_set (objects st) src (Some {| func := func o; cancelled := true |})
                           ++ [Some {| func := func o; cancelled := cancelled o |}]) =
                          holders f (objects st)).
    { intros f. rewrite holders_app.
      pose proof (holders_set f (objects st) src (Some {| func := func o; cancelled := true |}) _ Ho) as Hs.
      simpl. unfold pending in *. simpl in *. rewrite andb_false_r in Hs.
      destruct o as [g c]. simpl in *. lia. }
    split; [lia|]. split; intros; rewrite ?E; lia.
  - destruct (live st dst) as [d|] eqn:Hd; [|discriminate].
    destruct (live st src) as [o|] eqn:Ho; [|discriminate].
    destruct (dst =? src) eqn:Heq.
    + injection H as <-. split; [lia|]. split; intros; lia.
    + injection H as <-. simpl. apply Nat.eqb_neq in Heq.
      apply live_nth in Hd. apply live_nth in Ho.
      assert (E : forall f,
        count_occ Nat.eq_dec (run_destructor d (calls st)) f +
        holders f (list_set (list_set (objects st) dst (Some {| func := func o; cancelled := cancelled o |}))
                            src (Some {| func := func o; cancelled := true |})) =
        count_occ Nat.eq_dec (calls st) f + holders f (objects st)).
      { intros f. rewrite count_run_destructor.
        pose proof (holders_set f (objects st) dst (Some {| func := func o; cancelled := cancelled o |}) _ Hd) as H1.
        assert (Ho' : nth_error (list_set (objects st) dst (Some {| func := func o; cancelled := cancelled o |})) src
                      = Some (Some o)) by (rewrite nth_error_list_set_other by lia; exact Ho).
        pose proof (holders_set f _ src (Some {| func := func o; cancelled := true |}) _ Ho') as H2.
        unfold pending in *. simpl in *. rewrite andb_false_r in H2.
        destruct o as [g c]. simpl in *. lia. }
      split; [lia|]. split; intros; rewrite ?E; lia.
  - destruct (live st a) as [d|] eqn:Hd; [|discriminate].
    injection H as <-. simpl. apply live_nth in Hd.
    split; [lia|]. split; [|discriminate].
    intros f.
    pose proof (holders_set f (objects st) a (Some {| func := func d; cancelled := true |}) _ Hd) as Hs.
    unfold pending in Hs. simpl in Hs. rewrite andb_false_r in Hs. lia.
  - destruct (live st a) as [d|] eqn:Hd; [|discriminate].
    injection H as <-. simpl. apply live_nth in Hd.
    assert (E : forall f, count_occ Nat.eq_dec (run_destructor d (calls st)) f +
                          holders f (list_set (objects st) a None) =
                          count_occ Nat.eq_dec (calls st) f + holders f (objects st)).
    { intros f. rewrite count_run_destructor.
      pose proof (holders_set f (objects st) a None _ Hd) as Hs.
      change (pending f None) with 0 in Hs. lia. }
    split; [lia|]. split; intros; rewrite ?E; lia.
Qed.

Definition bound (st : state) (f : nat) : nat := if f <? next_func st then 1 else 0.

Lemma gain_bound : forall st ev st' f,
  next_func st' = next_func st + gain st ev (next_func st) ->
  bound st' f = bound st f + gain st ev f.
Proof.
  intros st ev st' f H. unfold bound, gain in *. rewrite H.
  destruct ev; rewrite ?Nat.add_0_r; try reflexivity.
  destruct (f =? next_func st) eqn:Hf.
  - apply Nat.eqb_eq in Hf. subst. rewrite Nat.eqb_refl, Nat.ltb_irrefl.
    replace (next_func st <? next_func st + 1) with true by (symmetry; apply Nat.ltb_lt; lia).
    reflexivity.
  - apply Nat.eqb_neq in Hf. rewrite Nat.eqb_refl.
    destruct (f <? next_func st) eqn:H1, (f <? next_func st + 1) eqn:H2; try reflexivity;
      apply Nat.ltb_lt in H1 || apply Nat.ltb_ge in H1;
      apply Nat.ltb_lt in H2 || apply Nat.ltb_ge in H2; lia.
Qed.

Lemma run_owed : forall evs st st',
  run st evs = Some st' ->
  (forall f, owed st f <= bound st f) ->
  (forall f, owed st' f <= bound st' f) /\
  ((forall f, owed st f = bound st f) -> forallb (fun ev => negb (is_cancel ev)) evs = true ->
   forall f, owed st' f = bound st' f).
Proof.
  induction evs as [|ev evs IH]; intros st st' H Hle; simpl in H.
  - injection H as <-. split; auto.
  - destruct (step st ev) as [s1|] eqn:Hs; [|discriminate].
    destruct (step_owed st ev s1 Hs) as [Hn [Hle1 Heq1]].
    assert (Hb : forall f, bound s1 f = bound st f + gain st ev f) by (intros; apply gain_bound; exact Hn).
    destruct (IH s1 st' H) as [IH1 IH2].
    { intros f. rewrite Hb. specialize (Hle1 f). specialize (Hle f). lia. }
    split; [exact IH1|].
    intros Heq Hc. simpl in Hc. apply andb_true_iff in Hc as [Hc1 Hc2].
    apply IH2; [|exact Hc2].
    intros f. rewrite Hb, Heq1 by (destruct (is_cancel ev); [discriminate|reflexivity]).
    rewrite Heq. reflexivity.
Qed.

Lemma owed_calls : forall st f, calls_of st f <= owed st f.
Proof. intros st f. unfold owed. lia. Qed.

(** X26: in every sequence of [defer], moves, [cancel] and destructions,
    the action of each [defer] is called at most once; with no
    [cancel], every action created is either called once or still held
    by exactly one live object that will call it, so once no object is
    alive each has been called exactly once. *)
Theorem deferred_action_runs_once :
  forall (evs : list event) (st : state),
    run init evs = Some st ->
    (forall f, calls_of st f <= 1) /\
    (forallb (fun ev => negb (is_cancel ev)) evs = true ->
     forall f, f < next_func st -> calls_of st f + holders f (objects st) = 1) /\
    (forallb (fun ev => negb (is_cancel ev)) evs = true ->
     (forall o, In o (objects st) -> o = None) ->
     forall f, f < next_func st -> calls_of st f = 1).
Proof.
  intros evs st H.
  assert (H0 : forall f, owed init f = bound init f) by reflexivity.
  destruct (run_owed evs init st H (fun f => Nat.eq_le_incl _ _ (H0 f))) as [Hle Heq].
  assert (Hex : forallb (fun ev => negb (is_cancel ev)) evs = true ->
                forall f, f < next_func st -> owed st f = 1).
  { intros Hc f Hf. rewrite (Heq H0 Hc f). unfold bound.
    apply Nat.ltb_lt in Hf. rewrite Hf. reflexivity. }
  split; [|split].
  - intros f. pose proof (owed_calls st f). specialize (Hle f). unfold bound in Hle.
    destruct (f <? next_func st); lia.
  - exact Hex.
  - intros Hc Hnone f Hf.
    assert (Hh : holders f (objects st) = 0).
    { clear -Hnone. induction (objects st) as [|o l IH]; [reflexivity|].
      simpl. rewrite (Hnone o (or_introl eq_refl)). simpl.
      apply IH. intros o' Ho'. apply Hnone. right. exact Ho'. }
    specialize (Hex Hc f Hf). unfold owed in Hex. lia.
Qed.

Lemma deferred_action_runs_once_witness :
  let evs := [ev_defer; ev_defer; ev_move_construct 0; ev_move_assign 1 2;
              ev_destroy 0; ev_destroy 1; ev_destroy 2] in
  let st := {| objects := [None; None; None]; next_func := 2; calls := [0; 1] |} in
  run init evs = Some st /\
  (forall f, calls_of st f <= 1) /\
  (forallb (fun ev => negb (is_cancel ev)) evs = true ->
   forall f, f < next_func st -> calls_of st f + holders f (objects st) = 1) /\
  (forallb (fun ev => negb (is_cancel ev)) evs = true ->
   (forall o, In o (objects st) -> o = None) ->
   forall f, f < next_func st -> calls_of st f = 1).
Proof.
  intros evs st.
  assert (H : run init evs = Some st) by reflexivity.
  split; [exact H|].
  exact (deferred_action_runs_once evs st H).
Defined.

End DeferProofs.

(** ** Loggers *)

Module LogProofs.
Import Ascii Log SStringProofs.

Lemma eqb_congr_l : forall x y k, SString.str x = SString.str y -> SString.eqb x k = SString.eqb y k.
Proof.
  intros x y k H. destruct (SString.eqb x k) eqn:E1, (SString.eqb y k) eqn:E2; try reflexivity.
  - apply eqb_str in E1. rewrite H, <- eqb_str in E1. congruence.
  - apply eqb_str in E2. rewrite <- H, <- eqb_str in E2. congruence.
Qed.

Lemma eqb_both : forall k n m,
  SString.eqb k m = true -> SString.eqb n m = true -> SString.eqb k n = true.
Proof.
  intros k n m H1 H2. apply eqb_str in H1. apply eqb_str in H2. apply eqb_str. congruence.
Qed.

Lemma find_level_congr : forall names s t,
  SString.str s = SString.str t -> find_level names s = find_level names t.
Proof.
  induction names as [|[l n] names IH]; intros s t H; simpl; [reflexivity|].
  rewrite (eqb_congr_l s t n H), (IH s t H). reflexivity.
Qed.

Lemma find_level_in : forall names s l,
  find_level names s = Some l -> exists n, In (l, n) names /\ SString.eqb s n = true.
Proof.
  induction names as [|[l' n] names IH]; intros s l H; simpl in H; [discriminate|].
  destruct (SString.eqb s n) eqn:E.
  - injection H as <-. exists n. split; [left; reflexivity | exact E].
  - apply IH in H as [n' [Hin Hn]]. exists n'. split; [right; exact Hin | exact Hn].
Qed.

Lemma lookup_congr : forall r n m, SString.str n = SString.str m -> lookup r n = lookup r m.
Proof.
  induction r as [|[k v] r IH]; intros n m H; simpl; [reflexivity|].
  rewrite (eqb_congr_r k n m H), (IH n m H). reflexivity.
Qed.

Lemma lookup_app : forall r1 r2 m,
  lookup (r1 ++ r2) m = match lookup r1 m with Some l => Some l | None => lookup r2 m end.
Proof.
  induction r1 as [|[k v] r1 IH]; intros r2 m; simpl; [reflexivity|].
  destruct (SString.eqb k m); [reflexivity | apply IH].
Qed.

Lemma lookup_set_all : forall r l m,
  lookup (set_all_loggers_level r l) m = option_map (fun _ => l) (lookup r m).
Proof.
  induction r as [|[k v] r IH]; intros l m; simpl; [reflexivity|].
  destruct (SString.eqb k m); [reflexivity | apply IH].
Qed.

Lemma keys_set_all : forall r l, map fst (set_all_loggers_level r l) = map fst r.
Proof.
  induction r as [|[k v] r IH]; intros l; simpl; [reflexivity|]. rewrite IH. reflexivity.
Qed.

Lemma lookup_keys : forall r1 r2 m,
  map fst r1 = map fst r2 -> (lookup r1 m = None <-> lookup r2 m = None).
Proof.
  induction r1 as [|[k v] r1 IH]; intros [|[k' v'] r2] m H; simpl in *; try discriminate.
  - tauto.
  - injection H as <- H. destruct (SString.eqb k m).
    + split; discriminate.
    + apply IH. exact H.
Qed.

Lemma set_logger_level_none : forall r n l,
  set_logger_level r n l = None <-> lookup r n = None.
Proof.
  induction r as [|[k v] r IH]; intros n l; simpl; [tauto|].
  destruct (SString.eqb k n).
  - split; discriminate.
  - destruct (set_logger_level r n l) eqn:E; simpl.
    + split; [discriminate|]. intros Hn. apply (proj2 (IH n l)) in Hn. congruence.
    + split; [intros _; apply (proj1 (IH n l)); exact E | reflexivity].
Qed.

Lemma set_logger_level_keys : forall r n l r',
  set_logger_level r n l = Some r' -> map fst r' = map fst r.
Proof.
  induction r as [|[k v] r IH]; intros n l r' H; simpl in H; [discriminate|].
  destruct (SString.eqb k n).
  - injection H as <-. reflexivity.
  - destruct (set_logger_level r n l) as [r1|] eqn:E; [|discriminate].
    injection H as <-. simpl. rewrite (IH n l r1 E). reflexivity.
Qed.

Lemma set_logger_level_lookup : forall r n l r' m,
  set_logger_level r n l = Some r' ->
  lookup r' m = if SString.eqb n m then Some l else lookup r m.
Proof.
  induction r as [|[k v] r IH]; intros n l r' m H; simpl in H; [discriminate|].
  destruct (SString.eqb k n) eqn:Ekn.
  - injection H as <-. simpl.
    apply eqb_str in Ekn. rewrite (eqb_congr_l k n m Ekn).
    destruct (SString.eqb n m); reflexivity.
  - destruct (set_logger_level r n l) as [r1|] eqn:E; [|discriminate].
    injection H as <-. simpl. rewrite (IH n l r1 m E).
    destruct (SString.eqb k m) eqn:Ekm; [|reflexivity].
    destruct (SString.eqb n m) eqn:Enm; [|reflexivity].
    rewrite (eqb_both k n m Ekm Enm) in Ekn. discriminate.
Qed.

Lemma lookup_unregister : forall r n m,
  lookup (unregister_logger r n) m = if SString.eqb n m then None else lookup r m.
Proof.
  unfold unregister_logger.
  induction r as [|[k v] r IH]; intros n m; simpl.
  - destruct (SString.eqb n m); reflexivity.
  - destruct (SString.eqb k n) eqn:Ekn; simpl.
    + rewrite IH. apply eqb_str in Ekn. rewrite (eqb_congr_l k n m Ekn).
      destruct (SString.eqb n m); reflexivity.
    + destruct (SString.eqb k m) eqn:Ekm; [|apply IH].
      destruct (SString.eqb n m) eqn:Enm; [|reflexivity].
      rewrite (eqb_both k n m Ekm Enm) in Ekn. discriminate.
Qed.

(** The level a logger named [m] ends with when its level is [d] before
    the loop over [ps]: that of the last entry naming it. *)
Fixpoint level_after (ps : list (SString.sstring * log_level)) (m : SString.sstring)
    (d : log_level) : log_level :=
  match ps with
  | [] => d
  | (n, l) :: ps' => level_after ps' m (if SString.eqb n m then l else d)
  end.

Definition levels_after (ps : list (SString.sstring * log_level)) (r : registry)
    (m : SString.sstring) : option log_level :=
  match lookup r m with None => None | Some d => Some (level_after ps m d) end.

Lemma levels_after_step : forall r n l r1 ps m,
  set_logger_level r n l = Some r1 ->
  levels_after ps r1 m = levels_after ((n, l) :: ps) r m.
Proof.
  intros r n l r1 ps m H. unfold levels_after. rewrite (set_logger_level_lookup r n l r1 m H).
  simpl. destruct (SString.eqb n m) eqn:Enm; [|reflexivity].
  assert (Hr : lookup r n <> None).
  { intros Hn. apply (proj2 (set_logger_level_none r n l)) in Hn. congruence. }
  apply eqb_str in Enm. rewrite <- (lookup_congr r n m Enm).
  destruct (lookup r n); [reflexivity | contradiction].
Qed.

Lemma set_levels_spec : forall ps r r' e,
  set_levels r ps = (r', e) ->
  map fst r' = map fst r /\
  (e = None <-> forall n l, In (n, l) ps -> lookup r n <> None) /\
  (e = None -> forall m, lookup r' m = levels_after ps r m) /\
  (forall n, e = Some n ->
     lookup r n = None /\
     exists pre l post, ps = pre ++ (n, l) :: post /\
       (forall m l', In (m, l') pre -> lookup r m <> None) /\
       forall m, lookup r' m = levels_after pre r m).
Proof.
  induction ps as [|[n l] ps IH]; intros r r' e H; simpl in H.
  - injection H as <- <-. split; [reflexivity|]. split; [split; [intros _ n l []|reflexivity]|].
    split; [|discriminate].
    intros _ m. unfold levels_after. simpl. destruct (lookup r m); reflexivity.
  - destruct (set_logger_level r n l) as [r1|] eqn:Hs.
    + destruct (IH r1 r' e H) as [Hk [Hok [Hlv Hfail]]].
      pose proof (set_logger_level_keys r n l r1 Hs) as Hk1.
      assert (Hr : lookup r n <> None).
      { intros Hn. apply (proj2 (set_logger_level_none r n l)) in Hn. congruence. }
      assert (Hsame : forall x, lookup r1 x <> None <-> lookup r x <> None).
      { intros x. pose proof (lookup_keys r1 r x Hk1). tauto. }
      split; [congruence|]. split; [|split].
      * rewrite Hok. split.
        -- intros Hall x y [Hxy|Hin].
           ++ injection Hxy as <- <-. exact Hr.
           ++ apply Hsame. apply (Hall x y Hin).
        -- intros Hall x y Hin. apply Hsame. apply (Hall x y (or_intror Hin)).
      * intros He m. rewrite (Hlv He m). apply levels_after_step. exact Hs.
      * intros x Hx. destruct (Hfail x Hx) as [Hx1 [pre [y [post [Hps [Hpre Hlvl]]]]]].
        split.
        -- pose proof (lookup_keys r1 r x Hk1). tauto.
        -- exists ((n, l) :: pre), y, post. split; [rewrite Hps; reflexivity|]. split.
           ++ intros z w [Hzw|Hin].
              ** injection Hzw as <- <-. exact Hr.
              ** apply Hsame. apply (Hpre z w Hin).
           ++ intros m. rewrite Hlvl. apply levels_after_step. exact Hs.
    + injection H as <- <-. apply (proj1 (set_logger_level_none r n l)) in Hs.
      split; [reflexivity|]. split; [|split; [discriminate|]].
      * split; [discriminate|]. intros Hall. exfalso. apply (Hall n l (or_introl eq_refl)). exact Hs.
      * intros x Hx. injection Hx as <-. split; [exact Hs|].
        exists [], l, ps. split; [reflexivity|]. split; [intros m l' []|].
        intros m. unfold levels_after. simpl. destruct (lookup r m); reflexivity.
Qed.

Lemma levels_after_set_all : forall ps r d m,
  levels_after ps (set_all_loggers_level r d) m =
    option_map (fun _ => level_after ps m d) (lookup r m).
Proof.
  intros ps r d m. unfold levels_after. rewrite lookup_set_all.
  destruct (lookup r m); reflexivity.
Qed.

Lemma lookup_set_all_none : forall r d n,
  lookup (set_all_loggers_level r d) n <> None <-> lookup r n <> None.
Proof.
  intros r d n. rewrite lookup_set_all. destruct (lookup r n); simpl; split; intros; congruence.
Qed.

(** X27: [operator<<] and [operator>>] on [log_level] are inverse: every
    level has a name in [log_level_names], and reading a word gives a
    level exactly when the word is that level's name. *)
Theorem log_level_name_round_trip :
  (forall level, exists n, log_level_name level = Some n) /\
  (forall (s : SString.sstring) (level : log_level),
     parse_log_level s = Some level <->
     exists n, log_level_name level = Some n /\ SString.str n = SString.str s).
Proof.
  split.
  - intros []; eexists; reflexivity.
  - intros s level. split.
    + intros H. apply find_level_in in H as [n [Hin Hn]].
      apply eqb_str in Hn. exists n. split; [|symmetry; exact Hn].
      simpl in Hin.
      destruct Hin as [E|[E|[E|[E|[E|[]]]]]]; injection E as <- <-; reflexivity.
    + intros [n [Hn Hs]]. unfold parse_log_level.
      rewrite (find_level_congr log_level_names s n (eq_sym Hs)).
      destruct level; injection Hn as <-; reflexivity.
Qed.

(** X28: the registry operations: [register_logger] throws exactly when
    the name is registered and otherwise adds it with the logger's
    level; [unregister_logger] removes the name; [set_logger_level]
    throws exactly when the name is not registered and otherwise changes
    that logger alone; [set_all_loggers_level] gives every registered
    logger the level. *)
Theorem logger_registry_ops :
  forall (r : registry) (n m : SString.sstring) (l : log_level),
    (register_logger r n l = None <-> lookup r n <> None) /\
    (forall r', register_logger r n l = Some r' ->
       lookup r' m = if SString.eqb n m then Some l else lookup r m) /\
    lookup (unregister_logger r n) m = (if SString.eqb n m then None else lookup r m) /\
    (set_logger_level r n l = None <-> get_logger_level r n = None) /\
    (forall r', set_logger_level r n l = Some r' ->
       get_logger_level r' m = if SString.eqb n m then Some l else get_logger_level r m) /\
    get_logger_level (set_all_loggers_level r l) m = option_map (fun _ => l) (get_logger_level r m).
Proof.
  intros r n m l. unfold get_logger_level. split; [|split; [|split; [|split; [|split]]]].
  - unfold register_logger. destruct (lookup r n); split; intros; congruence.
  - intros r' H. unfold register_logger in H.
    destruct (lookup r n) eqn:Hn; [discriminate|]. injection H as <-.
    rewrite lookup_app. simpl.
    destruct (SString.eqb n m) eqn:Enm.
    + apply eqb_str in Enm. rewrite <- (lookup_congr r n m Enm), Hn. reflexivity.
    + destruct (lookup r m); reflexivity.
  - apply lookup_unregister.
  - apply set_logger_level_none.
  - intros r' H. apply (set_logger_level_lookup r n l r' m H).
  - apply lookup_set_all.
Qed.

(** X29: when [apply_logging_settings] does not throw, every logger has
    the level of the last entry of [logger_levels] naming it, or
    [default_level]; the stream is enabled when [stdout_enabled] and
    [logger_ostream] is not [none], and is then [std::cout] or
    [std::cerr] as [logger_ostream] says; [syslog_enabled] and
    [stdout_timestamp_style] are applied. It does not throw exactly when
    every name in [logger_levels] is registered. *)
Theorem apply_logging_settings_applies :
  forall g r s r' g' e,
    apply_logging_settings g r s = (r', g', e) ->
    map fst r' = map fst r /\
    (e = None <-> forall n l, In (n, l) (logger_levels s) -> lookup r n <> None) /\
    (e = None ->
      (forall m, lookup r' m =
         option_map (fun _ => level_after (logger_levels s) m (default_level s)) (lookup r m)) /\
      ostream g' = stdout_enabled s &&
        match logger_ostream s with logger_ostream_type.none => false | _ => true end /\
      out g' = (if stdout_enabled s then
                  match logger_ostream s with
                  | logger_ostream_type.stdout => cout
                  | logger_ostream_type.stderr => cerr
                  | logger_ostream_type.none => out g
                  end
                else out g) /\
      syslog g' = syslog_enabled s /\
      print_timestamp g' = timestamp_of (stdout_timestamp_style s)).
Proof.
  intros g r s r' g' e H. unfold apply_logging_settings in H.
  destruct (set_levels (set_all_loggers_level r (default_level s)) (logger_levels s))
    as [r1 e1] eqn:Hs.
  destruct (set_levels_spec _ _ _ _ Hs) as [Hk [Hok [Hlv _]]].
  assert (Hk' : map fst r1 = map fst r) by (rewrite Hk; apply keys_set_all).
  assert (Hok' : e1 = None <-> forall n l, In (n, l) (logger_levels s) -> lookup r n <> None).
  { rewrite Hok. split; intros Hall n l Hin.
    - apply (proj1 (lookup_set_all_none r (default_level s) n)). apply (Hall n l Hin).
    - apply (proj2 (lookup_set_all_none r (default_level s) n)). apply (Hall n l Hin). }
  destruct e1 as [x|].
  - injection H as <- <- <-. split; [exact Hk'|]. split; [exact Hok'|discriminate].
  - injection H as <- <- <-. split; [exact Hk'|]. split; [rewrite <- Hok'; tauto|].
    intros _. split.
    + intros m. rewrite (Hlv eq_refl m). apply levels_after_set_all.
    + destruct (stdout_enabled s), (logger_ostream s); simpl; auto.
Qed.

Lemma apply_logging_settings_applies_witness :
  let a := SString.internal ["a"]%char in
  let b := SString.internal ["b"]%char in
  let g := {| out := cerr; ostream := true; syslog := false; print_timestamp := print_no_timestamp |} in
  let r := [(a, info); (b, info)] in
  let s := {| logger_levels := [(a, debug); (a, trace)]; default_level := warn;
              stdout_enabled := true; syslog_enabled := true;
              logger_ostream := logger_ostream_type.stdout;
              stdout_timestamp_style := logger_timestamp_style.real |} in
  let r' := [(a, trace); (b, warn)] in
  let g' := {| out := cout; ostream := true; syslog := true;
               print_timestamp := print_space_and_real_timestamp |} in
  apply_logging_settings g r s = (r', g', None) /\
  map fst r' = map fst r /\
  (@None SString.sstring = None <-> forall n l, In (n, l) (logger_levels s) -> lookup r n <> None) /\
  (@None SString.sstring = None ->
    (forall m, lookup r' m =
       option_map (fun _ => level_after (logger_levels s) m (default_level s)) (lookup r m)) /\
    ostream g' = stdout_enabled s &&
      match logger_ostream s with logger_ostream_type.none => false | _ => true end /\
    out g' = (if stdout_enabled s then
                match logger_ostream s with
                | logger_ostream_type.stdout => cout
                | logger_ostream_type.stderr => cerr
                | logger_ostream_type.none => out g
                end
              else out g) /\
    syslog g' = syslog_enabled s /\
    print_timestamp g' = timestamp_of (stdout_timestamp_style s)).
Proof.
  intros a b g r s r' g'.
  assert (H : apply_logging_settings g r s = (r', g', None)) by reflexivity.
  split; [exact H|].
  exact (apply_logging_settings_applies g r s r' g' None H).
Defined.

(** X30: when [apply_logging_settings] throws [Unknown logger] for a name,
    that name is not registered and is the first such in
    [logger_levels]; the stream, syslog and timestamp settings are left
    as they were, while the loggers already have [default_level] and the
    levels of the entries before it. *)
Theorem apply_logging_settings_unknown_logger :
  forall g r s r' g' n,
    apply_logging_settings g r s = (r', g', Some n) ->
    g' = g /\ map fst r' = map fst r /\ lookup r n = None /\
    exists pre l post, logger_levels s = pre ++ (n, l) :: post /\
      (forall m l', In (m, l') pre -> lookup r m <> None) /\
      forall m, lookup r' m = option_map (fun _ => level_after pre m (default_level s)) (lookup r m).
Proof.
  intros g r s r' g' n H. unfold apply_logging_settings in H.
  destruct (set_levels (set_all_loggers_level r (default_level s)) (logger_levels s))
    as [r1 e1] eqn:Hs.
  destruct e1 as [x|]; [|discriminate].
  injection H as <- <- <-.
  destruct (set_levels_spec _ _ _ _ Hs) as [Hk [_ [_ Hfail]]].
  destruct (Hfail x eq_refl) as [Hx [pre [l [post [Hps [Hpre Hlv]]]]]].
  split; [reflexivity|]. split; [rewrite Hk; apply keys_set_all|]. split.
  - rewrite lookup_set_all in Hx. destruct (lookup r x); [discriminate|reflexivity].
  - exists pre, l, post. split; [exact Hps|]. split.
    + intros m l' Hin. rewrite <- (lookup_set_all_none r (default_level s)). apply (Hpre m l' Hin).
    + intros m. rewrite Hlv. apply levels_after_set_all.
Qed.

Lemma apply_logging_settings_unknown_logger_witness :
  let a := SString.internal ["a"]%char in
  let b := SString.internal ["b"]%char in
  let c := SString.internal ["c"]%char in
  let g := {| out := cerr; ostream := true; syslog := false; print_timestamp := print_no_timestamp |} in
  let r := [(a, info); (b, info)] in
  let s := {| logger_levels := [(a, debug); (c, trace); (b, error)]; default_level := warn;
              stdout_enabled := false; syslog_enabled := true;
              logger_ostream := logger_ostream_type.stdout;
              stdout_timestamp_style := logger_timestamp_style.real |} in
  let r' := [(a, debug); (b, warn)] in
  apply_logging_settings g r s = (r', g, Some c) /\
  g = g /\ map fst r' = map fst r /\ lookup r c = None /\
  exists pre l post, logger_levels s = pre ++ (c, l) :: post /\
    (forall m l', In (m, l') pre -> lookup r m <> None) /\
    forall m, lookup r' m = option_map (fun _ => level_after pre m (default_level s)) (lookup r m).
Proof.
  intros a b c g r s r'.
  assert (H : apply_logging_settings g r s = (r', g, Some c)) by reflexivity.
  split; [exact H|].
  exact (apply_logging_settings_unknown_logger g r s r' g c H).
Defined.

End LogProofs.
